(** * Filter banks and dataset acquisition of the figure generator

    A shallow embedding of [generar_figuras.py] and
    [scripts/regenerar_figuras_eurosat.py].

    Images are two-dimensional numpy arrays.  Pixel arithmetic is carried
    out over the rationals [Q]: the float32/float64 values of the scripts
    are idealised as exact numbers, and numpy's elementwise [==] is [Qeq].
    The numerical filters of scikit-image that the scripts only call
    (gaussian, median, sobel, laplace, canny, resize) are a parameter of
    the development, the class [SkimageLib]; the library functions whose
    result decides a property ([rescale_intensity], [disk] and the grey
    morphology) are modelled after their documented behaviour. *)

From Stdlib Require Import Ascii QArith Qminmax Qabs Qround Lqa.
From stdpp Require Import gmap strings list pretty sorting.

Local Open Scope Q_scope.

(** ** numpy arrays of rank two *)

Module Np.

Record ndarray (A : Type) : Type := NdArray {
  shape : nat * nat;
  data : list (list A)
}.
Arguments NdArray {A} _ _.
Arguments shape {A} _.
Arguments data {A} _.

Definition height {A} (x : ndarray A) : nat := fst (shape x).
Definition width {A} (x : ndarray A) : nat := snd (shape x).

(** The buffer agrees with the shape: [height] rows of [width] pixels. *)
Definition wf {A} (x : ndarray A) : Prop :=
  length (data x) = height x ∧ Forall (λ r, length r = width x) (data x).

(** [x[i, j]], with a default outside the buffer. *)
Definition get {A} (d : A) (x : ndarray A) (i j : nat) : A :=
  nth j (nth i (data x) []) d.

(** The array of the given shape whose pixel [(i, j)] is [f i j]. *)
Definition tabulate {A} (sh : nat * nat) (f : nat → nat → A) : ndarray A :=
  NdArray sh (map (λ i, map (f i) (seq 0 (snd sh))) (seq 0 (fst sh))).

(** Elementwise unary and binary operations ([np.abs], [x + y], ...). *)
Definition map1 {A B} (d : A) (f : A → B) (x : ndarray A) : ndarray B :=
  tabulate (shape x) (λ i j, f (get d x i j)).

Definition map2 {A B C} (da : A) (db : B) (f : A → B → C)
    (x : ndarray A) (y : ndarray B) : ndarray C :=
  tabulate (shape x) (λ i j, f (get da x i j) (get db y i j)).

(** All pixels of the array, in row-major order ([x.ravel()]). *)
Definition ravel {A} (d : A) (x : ndarray A) : list A :=
  flat_map (λ i, map (get d x i) (seq 0 (width x))) (seq 0 (height x)).

(** Every pixel inside the shape satisfies [P]. *)
Definition all_px {A} (d : A) (P : A → Prop) (x : ndarray A) : Prop :=
  ∀ i j, (i < height x)%nat → (j < width x)%nat → P (get d x i j).

(** Some pixel inside the shape satisfies [P]. *)
Definition some_px {A} (d : A) (P : A → Prop) (x : ndarray A) : Prop :=
  ∃ i j, (i < height x)%nat ∧ (j < width x)%nat ∧ P (get d x i j).

(** [np.array_equal] on float arrays: same shape, equal pixels. *)
Definition array_eq (x y : ndarray Q) : Prop :=
  shape x = shape y ∧
  ∀ i j, (i < height x)%nat → (j < width x)%nat → get 0 x i j == get 0 y i j.

(** Minimum and maximum of a list of pixels; [0] on the empty list. *)
Definition lmin (l : list Q) : Q :=
  match l with [] => 0 | a :: l' => fold_left Qmin l' a end.
Definition lmax (l : list Q) : Q :=
  match l with [] => 0 | a :: l' => fold_left Qmax l' a end.

Definition amin (x : ndarray Q) : Q := lmin (ravel 0 x).
Definition amax (x : ndarray Q) : Q := lmax (ravel 0 x).

(** The image takes one value only. *)
Definition constant_image (x : ndarray Q) : Prop := amin x == amax x.

(** The values lie in [[0, 1]] and both ends are attained. *)
Definition spans01 (x : ndarray Q) : Prop :=
  all_px 0 (λ v, 0 <= v ∧ v <= 1) x ∧
  some_px 0 (λ v, v == 0) x ∧ some_px 0 (λ v, v == 1) x.

(** [np.clip(x, lo, hi)] is [minimum(maximum(x, lo), hi)]. *)
Definition clipq (lo hi v : Q) : Q := Qmin (Qmax v lo) hi.
Definition clip (x : ndarray Q) (lo hi : Q) : ndarray Q := map1 0 (clipq lo hi) x.

Definition add (x y : ndarray Q) : ndarray Q := map2 0 0 Qplus x y.
Definition sub (x y : ndarray Q) : ndarray Q := map2 0 0 Qminus x y.
(** [x * c] for a scalar [c]. *)
Definition scale (x : ndarray Q) (c : Q) : ndarray Q := map1 0 (λ v, v * c) x.
Definition abs (x : ndarray Q) : ndarray Q := map1 0 Qabs x.

(** [mask.astype(np.float32)]: [False] becomes [0.0], [True] becomes [1.0]. *)
Definition astype_float32_of_bool (m : ndarray bool) : ndarray Q :=
  map1 false (λ b : bool, if b then 1 else 0) m.

(** [y.astype(np.float32)] on a float array: the identity on exact pixels. *)
Definition astype_float32 (y : ndarray Q) : ndarray Q := y.

(** [arr.astype(np.float32)] on an 8-bit image. *)
Definition astype_float32_of_uint8 (a : ndarray Z) : ndarray Q :=
  map1 0%Z inject_Z a.

End Np.

(** ** Python values the scripts rely on: exceptions and dictionaries *)

Module Py.

(** The exception classes that can reach the scripts.  All of them derive
    from [Exception] except [KeyboardInterrupt]. *)
Inductive exn : Type :=
  | URLError (msg : string)
  | OSError (msg : string)
  | ValueError (msg : string)
  | FileNotFoundError (path : string)
  | FileExistsError (path : string)
  | BadZipFile (msg : string)
  | ReadError (msg : string)
  | ImportError (name : string)
  | IndexError
  | ZeroDivisionError
  | RuntimeError (msg : string)
  | KeyboardInterrupt.

(** [isinstance(e, Exception)]. *)
Definition is_Exception (e : exn) : bool :=
  match e with KeyboardInterrupt => false | _ => true end.

(** [isinstance(e, ImportError)]. *)
Definition is_ImportError (e : exn) : bool :=
  match e with ImportError _ => true | _ => false end.

(** A statement either completes with a value or raises. *)
Inductive res (A : Type) : Type :=
  | Ok (a : A)
  | Raise (e : exn).
Arguments Ok {A} _.
Arguments Raise {A} _.

(** A [dict] with string keys keeps its items in insertion order; storing
    under a key already present replaces the value in place. *)
Definition dict (V : Type) : Type := list (string * V).

Fixpoint setitem {V} (d : dict V) (k : string) (v : V) : dict V :=
  match d with
  | [] => [(k, v)]
  | (k', v') :: d' =>
      if String.eqb k' k then (k', v) :: d' else (k', v') :: setitem d' k v
  end.

(** A dict display [{k1: v1, ..., kn: vn}] stores its items left to right. *)
Definition dict_display {V} (items : list (string * V)) : dict V :=
  fold_left (λ d kv, setitem d (fst kv) (snd kv)) items [].

Fixpoint getitem {V} (d : dict V) (k : string) : option V :=
  match d with
  | [] => None
  | (k', v) :: d' => if String.eqb k' k then Some v else getitem d' k
  end.

Definition keys {V} (d : dict V) : list string := map fst d.
Definition values {V} (d : dict V) : list V := map snd d.

(** [int(q)] on a float: truncation towards zero. *)
Definition int_of_float (q : Q) : Z := Z.quot (Qnum q) (Zpos (Qden q)).

(** [f"{n}"] for a non-negative integer. *)
Definition fmt_int (n : nat) : string := pretty n.

End Py.

(** ** scikit-image *)

Module Sk.
Import Np.

(** The filters the scripts call without looking inside.  The arguments
    are those the scripts pass: [gaussian image sigma preserve_range],
    [median image footprint], [canny image sigma] (a boolean mask), and
    [resize image output_shape] (called with [anti_aliasing=True] and
    [preserve_range=True]). *)
Class SkimageLib : Type := {
  gaussian : ndarray Q → Q → bool → ndarray Q;
  median : ndarray Q → ndarray bool → ndarray Q;
  sobel : ndarray Q → ndarray Q;
  laplace : ndarray Q → ndarray Q;
  canny : ndarray Q → Q → ndarray bool;
  resize : ndarray Q → nat * nat → ndarray Q
}.

(** What the documentation of these filters promises: each returns an
    array shaped like its input, and [resize] returns the requested shape
    with the pixels of a non-empty input clipped to the range of that
    input ([clip=True]). *)
Class SkimageSpec (L : SkimageLib) : Prop := {
  gaussian_shape : ∀ x s p, shape (gaussian x s p) = shape x;
  median_shape : ∀ x fp, shape (median x fp) = shape x;
  sobel_shape : ∀ x, shape (sobel x) = shape x;
  laplace_shape : ∀ x, shape (laplace x) = shape x;
  canny_shape : ∀ x s, shape (canny x s) = shape x;
  resize_shape : ∀ x sh, shape (resize x sh) = sh;
  resize_clip : ∀ x sh lo hi,
    (0 < height x)%nat → (0 < width x)%nat →
    all_px 0 (λ v, lo <= v ∧ v <= hi) x →
    all_px 0 (λ v, lo <= v ∧ v <= hi) (resize x sh)
}.

(** [exposure.rescale_intensity(image, in_range="image", out_range=(omin, omax))]:
    the input range is the minimum and maximum of the image itself; a
    constant image is only clipped to the output range. *)
Definition rescale_intensity (image : ndarray Q) (out_range : Q * Q) : ndarray Q :=
  let imin := amin image in
  let imax := amax image in
  let '(omin, omax) := out_range in
  let image := clip image imin imax in
  if Qeq_bool imin imax
  then clip image omin omax
  else map1 0 (λ v, (v - imin) / (imax - imin) * (omax - omin) + omin) image.

(** [morphology.disk(radius)]: the [(2r+1) x (2r+1)] mask of the points
    at distance at most [r] from the centre. *)
Definition disk (r : nat) : ndarray bool :=
  tabulate (2 * r + 1, 2 * r + 1)%nat
    (λ a b, let da := (Z.of_nat a - Z.of_nat r)%Z in
            let db := (Z.of_nat b - Z.of_nat r)%Z in
            (da * da + db * db <=? Z.of_nat r * Z.of_nat r)%Z).

(** [morphology.mirror_footprint]: the footprint flipped along both axes. *)
Definition mirror_footprint (se : ndarray bool) : ndarray bool :=
  tabulate (shape se)
    (λ a b, get false se (height se - 1 - a) (width se - 1 - b)).

(** Offsets, relative to the centre [size // 2], of the cells of a
    footprint that are set. *)
Definition offsets (se : ndarray bool) : list (Z * Z) :=
  flat_map (λ a,
    flat_map (λ b,
      if get false se a b
      then [((Z.of_nat a - Z.of_nat (height se / 2))%Z,
             (Z.of_nat b - Z.of_nat (width se / 2))%Z)]
      else [])
      (seq 0 (width se)))
    (seq 0 (height se)).

(** Border mode ['reflect'] of scipy.ndimage, [d c b a | a b c d | d c b a]:
    the index inside [0, n) that an arbitrary coordinate reads. *)
Definition reflect (n : nat) (z : Z) : nat :=
  let m := (z mod (2 * Z.of_nat n))%Z in
  Z.to_nat (if (m <? Z.of_nat n)%Z then m else (2 * Z.of_nat n - 1 - m)%Z).

(** The pixels of [f] under the footprint centred at [(i, j)]. *)
Definition window (sh : nat * nat) (B : list (Z * Z))
    (f : nat → nat → Q) (i j : nat) : list Q :=
  map (λ b, f (reflect (fst sh) (Z.of_nat i + fst b))
              (reflect (snd sh) (Z.of_nat j + snd b))) B.

(** Grey erosion and dilation with a flat footprint: the minimum,
    respectively the maximum, over the footprint. *)
Definition erode_px (sh : nat * nat) (B : list (Z * Z))
    (f : nat → nat → Q) (i j : nat) : Q := lmin (window sh B f i j).
Definition dilate_px (sh : nat * nat) (B : list (Z * Z))
    (f : nat → nat → Q) (i j : nat) : Q := lmax (window sh B f i j).

Definition erosion (image : ndarray Q) (footprint : ndarray bool) : ndarray Q :=
  tabulate (shape image)
    (erode_px (shape image) (offsets footprint) (get 0 image)).

Definition dilation (image : ndarray Q) (footprint : ndarray bool) : ndarray Q :=
  tabulate (shape image)
    (dilate_px (shape image) (offsets footprint) (get 0 image)).

(** Opening is erosion followed by dilation with the mirrored footprint;
    closing is dilation followed by erosion with the mirrored footprint. *)
Definition opening (image : ndarray Q) (footprint : ndarray bool) : ndarray Q :=
  dilation (erosion image footprint) (mirror_footprint footprint).

Definition closing (image : ndarray Q) (footprint : ndarray bool) : ndarray Q :=
  erosion (dilation image footprint) (mirror_footprint footprint).

(** The white top-hat is the image minus its opening. *)
Definition white_tophat (image : ndarray Q) (footprint : ndarray bool) : ndarray Q :=
  sub image (opening image footprint).

(** *** Vocabulary for reasoning about the morphology *)

(** Pixel functions compared on the image domain. *)
Definition le_on (sh : nat * nat) (f g : nat → nat → Q) : Prop :=
  ∀ i j, (i < fst sh)%nat → (j < snd sh)%nat → f i j <= g i j.
Definition eq_on (sh : nat * nat) (f g : nat → nat → Q) : Prop :=
  ∀ i j, (i < fst sh)%nat → (j < snd sh)%nat → f i j = g i j.

(** Two footprints are flip-related when every offset of the first, with
    either coordinate negated or not, is an offset of the second. *)
Definition flip_closed (B B' : list (Z * Z)) : Prop :=
  ∀ a b a' b', In (a, b) B →
    (a' = a ∨ a' = - a)%Z → (b' = b ∨ b' = - b)%Z → In (a', b') B'.

(** Opening and closing as pixel functions, with the offsets [B] of the
    footprint and [B'] of its mirror image. *)
Definition open_px (sh : nat * nat) (B B' : list (Z * Z))
    (f : nat → nat → Q) : nat → nat → Q :=
  dilate_px sh B' (erode_px sh B f).
Definition close_px (sh : nat * nat) (B B' : list (Z * Z))
    (f : nat → nat → Q) : nat → nat → Q :=
  erode_px sh B' (dilate_px sh B f).

End Sk.

(** ** [generar_figuras.py]: image processing *)

Module Main.
Import Np Py Sk.

Section Banks.
Context {L : SkimageLib}.

(** [load_gray(path, max_side=512)].  [arr] is the 8-bit greyscale image
    that [np.asarray(Image.open(path).convert("L"))] yields. *)
Definition load_gray (arr : ndarray Z) (max_side : Z) : res (ndarray Q) :=
  let x := map1 0 (λ v, v / 255) (astype_float32_of_uint8 arr) in
  let x := rescale_intensity x (0, 1) in
  let '(h, w) := shape x in
  if (max_side =? 0)%Z then Raise ZeroDivisionError
  else
    let scale := inject_Z (Z.of_nat (Nat.max h w)) / inject_Z max_side in
    if Qlt_le_dec 1 scale then
      let new_h := Z.to_nat (int_of_float (inject_Z (Z.of_nat h) / scale)) in
      let new_w := Z.to_nat (int_of_float (inject_Z (Z.of_nat w) / scale)) in
      Ok (astype_float32 (resize x (new_h, new_w)))
    else Ok x.

Definition spatial_filters (x : ndarray Q) : dict (ndarray Q) :=
  dict_display [
    ("gaussian_s1", gaussian x 1 true);
    ("gaussian_s2", gaussian x 2 true);
    ("median_r2", median x (disk 2));
    ("median_r4", median x (disk 4));
    ("unsharp_r1_a1", clip (add x (scale (sub x (gaussian x 1 false)) 1)) 0 1);
    ("sobel", rescale_intensity (sobel x) (0, 1));
    ("laplace", rescale_intensity (abs (laplace x)) (0, 1));
    ("canny_s12", astype_float32_of_bool (canny x (12 # 10)))
  ].

Definition morph_filters (x : ndarray Q) (r : nat) : dict (ndarray Q) :=
  let se := disk r in
  dict_display [
    ("opening_r" +:+ fmt_int r, opening x se);
    ("closing_r" +:+ fmt_int r, closing x se);
    ("tophat_r" +:+ fmt_int r, white_tophat x se);
    ("erosion_r" +:+ fmt_int r, erosion x se);
    ("dilation_r" +:+ fmt_int r, dilation x se)
  ].

Definition pipelines (x : ndarray Q) : dict (ndarray Q) :=
  let den := median x (disk 3) in
  let p1 := clip (add den (scale (sub den (gaussian den (15 # 10) false)) (12 # 10))) 0 1 in
  let p2 := opening (closing x (disk 3)) (disk 3) in
  dict_display [
    ("P1_med3+unsharp", p1);
    ("P2_close+open", p2)
  ].

End Banks.
End Main.

(** ** [scripts/regenerar_figuras_eurosat.py] *)

Module Regen.
Import Np Py Sk.

Section Banks.
Context {L : SkimageLib}.

(** Carga imagen en escala de grises y la normaliza. *)
Definition load_gray (arr : ndarray Z) (max_side : Z) : res (ndarray Q) :=
  let img := arr in
  let arr := img in
  let x := map1 0 (λ v, v / 255) (astype_float32_of_uint8 arr) in
  let x := rescale_intensity x (0, 1) in
  let '(h, w) := shape x in
  if (max_side =? 0)%Z then Raise ZeroDivisionError
  else
    let scale := inject_Z (Z.of_nat (Nat.max h w)) / inject_Z max_side in
    if Qlt_le_dec 1 scale then
      let new_h := Z.to_nat (int_of_float (inject_Z (Z.of_nat h) / scale)) in
      let new_w := Z.to_nat (int_of_float (inject_Z (Z.of_nat w) / scale)) in
      Ok (astype_float32 (resize x (new_h, new_w)))
    else Ok x.

(** Aplica filtros espaciales. *)
Definition spatial_filters (x : ndarray Q) : dict (ndarray Q) :=
  dict_display [
    ("gaussian_s1", gaussian x 1 true);
    ("gaussian_s2", gaussian x 2 true);
    ("median_r2", median x (disk 2));
    ("median_r4", median x (disk 4));
    ("unsharp_r1_a1", clip (add x (scale (sub x (gaussian x 1 false)) 1)) 0 1);
    ("sobel", rescale_intensity (sobel x) (0, 1));
    ("laplace", rescale_intensity (abs (laplace x)) (0, 1));
    ("canny_s12", astype_float32_of_bool (canny x (12 # 10)))
  ].

(** Aplica operaciones morfologicas. *)
Definition morph_filters (x : ndarray Q) (r : nat) : dict (ndarray Q) :=
  let se := disk r in
  dict_display [
    ("opening_r" +:+ fmt_int r, opening x se);
    ("closing_r" +:+ fmt_int r, closing x se);
    ("tophat_r" +:+ fmt_int r, white_tophat x se);
    ("erosion_r" +:+ fmt_int r, erosion x se);
    ("dilation_r" +:+ fmt_int r, dilation x se)
  ].

(** Pipelines combinados. *)
Definition pipelines (x : ndarray Q) : dict (ndarray Q) :=
  let den := median x (disk 3) in
  let p1 := clip (add den (scale (sub den (gaussian den (15 # 10) false)) (12 # 10))) 0 1 in
  let p2 := opening (closing x (disk 3)) (disk 3) in
  dict_display [
    ("P1_med3+unsharp", p1);
    ("P2_close+open", p2)
  ].

End Banks.
End Regen.

(** ** The pipelines as the specification words them *)

Module Spec.
Import Np Py Sk.

Section Pipelines.
Context {L : SkimageLib}.

(** Unsharp masking: the original plus a scaled high-frequency residual
    (original minus blurred). *)
Definition unsharp_mask (y : ndarray Q) (sigma amount : Q) : ndarray Q :=
  tabulate (shape y)
    (λ i j, get 0 y i j
            + amount * (get 0 y i j - get 0 (gaussian y sigma false) i j)).

(** Median denoising with a disc of the given radius. *)
Definition median_denoise (x : ndarray Q) (r : nat) : ndarray Q :=
  median x (disk r).

(** Median-denoise, then unsharp; the result is kept in [[0, 1]]. *)
Definition P1 (x : ndarray Q) : ndarray Q :=
  clip (unsharp_mask (median_denoise x 3) (15 # 10) (12 # 10)) 0 1.

(** Close, then open, each with a disc of radius 3. *)
Definition P2 (x : ndarray Q) : ndarray Q :=
  opening (closing x (disk 3)) (disk 3).

End Pipelines.
End Spec.

(** ** A small exact instance of the filter library

    Used to run the banks on concrete images.  Smoothing is a 3x3 mean,
    the gradient magnitude takes its square root to 16 binary places, the
    edge mask thresholds the gradient, and resizing samples the nearest
    pixel.  Borders are reflected. *)

Module Ref.
Import Np Py Sk.

Definition qsum (l : list Q) : Q := fold_right Qplus 0 l.

(** Correlation with a list of weighted offsets. *)
Definition correlate (k : list (Z * Z * Q)) (x : ndarray Q) : ndarray Q :=
  tabulate (shape x)
    (λ i j, qsum (map (λ e, snd e *
                        get 0 x (reflect (height x) (Z.of_nat i + fst (fst e)))
                                (reflect (width x) (Z.of_nat j + snd (fst e)))) k)).

Definition mean3_kernel : list (Z * Z * Q) :=
  map (λ b, (b, 1 # 9))
    [(-1, -1); (-1, 0); (-1, 1); (0, -1); (0, 0); (0, 1); (1, -1); (1, 0); (1, 1)]%Z.

Definition sobel_h_kernel : list (Z * Z * Q) :=
  [((-1, -1)%Z, 1 # 4); ((-1, 0)%Z, 2 # 4); ((-1, 1)%Z, 1 # 4);
   ((1, -1)%Z, - (1 # 4)); ((1, 0)%Z, - (2 # 4)); ((1, 1)%Z, - (1 # 4))].

Definition sobel_v_kernel : list (Z * Z * Q) :=
  [((-1, -1)%Z, 1 # 4); ((0, -1)%Z, 2 # 4); ((1, -1)%Z, 1 # 4);
   ((-1, 1)%Z, - (1 # 4)); ((0, 1)%Z, - (2 # 4)); ((1, 1)%Z, - (1 # 4))].

Definition laplace_kernel : list (Z * Z * Q) :=
  [((0, 0)%Z, 4 # 1); ((-1, 0)%Z, - (1 # 1)); ((1, 0)%Z, - (1 # 1));
   ((0, -1)%Z, - (1 # 1)); ((0, 1)%Z, - (1 # 1))].

(** Square root rounded down to 16 binary places. *)
Definition qsqrt (q : Q) : Q :=
  inject_Z (Z.sqrt (Qfloor (q * inject_Z (2 ^ 32)))) / inject_Z (2 ^ 16).

Fixpoint insert_sorted (v : Q) (l : list Q) : list Q :=
  match l with
  | [] => [v]
  | a :: l' => if Qle_bool v a then v :: l else a :: insert_sorted v l'
  end.

Definition sort (l : list Q) : list Q := fold_right insert_sorted [] l.

Definition middle (l : list Q) : Q := nth (length l / 2) (sort l) 0.

Definition ref_gaussian (x : ndarray Q) (sigma : Q) (preserve_range : bool) : ndarray Q :=
  correlate mean3_kernel x.

Definition ref_median (x : ndarray Q) (footprint : ndarray bool) : ndarray Q :=
  tabulate (shape x)
    (λ i j, middle (window (shape x) (offsets footprint) (get 0 x) i j)).

Definition ref_sobel (x : ndarray Q) : ndarray Q :=
  map2 0 0 (λ gh gv, qsqrt ((gh * gh + gv * gv) / 2))
    (correlate sobel_h_kernel x) (correlate sobel_v_kernel x).

Definition ref_laplace (x : ndarray Q) : ndarray Q := correlate laplace_kernel x.

Definition ref_canny (x : ndarray Q) (sigma : Q) : ndarray bool :=
  map1 0 (λ v, negb (Qle_bool v (1 # 10))) (ref_sobel (ref_gaussian x sigma false)).

Definition ref_resize (x : ndarray Q) (sh : nat * nat) : ndarray Q :=
  tabulate sh (λ i j, get 0 x (i * height x / fst sh) (j * width x / snd sh)).

Definition lib : SkimageLib := {|
  gaussian := ref_gaussian;
  median := ref_median;
  sobel := ref_sobel;
  laplace := ref_laplace;
  canny := ref_canny;
  resize := ref_resize
|}.

(** Test images. *)
Definition flat2 : ndarray Q := NdArray (2, 2)%nat [[1 # 2; 1 # 2]; [1 # 2; 1 # 2]].
Definition step3 : ndarray Q :=
  NdArray (3, 3)%nat [[0; 0; 1]; [0; 0; 1]; [0; 0; 1]].
Definition spot3 : ndarray Q :=
  NdArray (3, 3)%nat [[0; 0; 0]; [0; 1; 0]; [0; 0; 0]].
Definition gray_flat : ndarray Z :=
  NdArray (2, 2)%nat [[128; 128]; [128; 128]]%Z.
Definition gray_2x3 : ndarray Z :=
  NdArray (2, 3)%nat [[10; 20; 30]; [40; 50; 255]]%Z.

End Ref.

(** ** [generar_figuras.py]: dataset acquisition *)

Module Script.
Import Py.

(** *** The world outside the script *)

Inductive node : Type :=
  | File (content : string)
  | Dir.

(** An HTTP response: the [content-length] header as [int(...)] reads it,
    the chunks that successive [read] calls return, and the exception that
    the call after the last chunk raises, if any.  Reading stops at an
    empty chunk. *)
Record response : Type := Response {
  content_length : res Z;
  chunks : list string;
  read_error : option exn
}.

(** A decoded picture: its number of axes and its pixels. *)
Record picture : Type := Picture {
  ndim : nat;
  pixels : string
}.

(** Everything the script obtains from outside: the network, the archive
    readers, the optional TensorFlow Datasets package and the sample
    pictures shipped with scikit-image. *)
Record world : Type := World {
  urlopen : string → res response;
  open_wb : string → option exn;
  zip_members : string → res (list (string * node));
  tar_members : string → res (list (string * node));
  import_tfds : option exn;
  tfds_load : res (list (nat * picture));
  image_save : string → picture → res string;
  sample : string → res picture;
  rgb2gray_uint8 : picture → picture
}.

(** What the script prints. *)
Inductive msg : Type :=
  | MsgExists (name : string)
  | MsgDownloading (name : string)
  | MsgProgress (downloaded total : Z)
  | MsgNewline
  | MsgError (e : exn)
  | MsgExtracting (name : string)
  | MsgLoadingEurosat
  | MsgSavedEurosat (n : nat)
  | MsgTensorflowMissing
  | MsgFallbackCount (n : nat).

(** The state the script acts on: the file system, the console, the URLs
    opened so far, and the global list [eurosat_images]. *)
Record state : Type := State {
  fs : gmap string node;
  console : list msg;
  net_log : list string;
  eurosat_images : list string
}.

Definition set_fs (f : gmap string node → gmap string node) (s : state) : state :=
  State (f (fs s)) (console s) (net_log s) (eurosat_images s).
Definition add_console (m : msg) (s : state) : state :=
  State (fs s) (console s ++ [m]) (net_log s) (eurosat_images s).
Definition add_net_log (u : string) (s : state) : state :=
  State (fs s) (console s) (net_log s ++ [u]) (eurosat_images s).
Definition add_eurosat_image (p : string) (s : state) : state :=
  State (fs s) (console s) (net_log s) (eurosat_images s ++ [p]).

(** *** Statements: state passing with exceptions *)

Definition M (A : Type) : Type := state → res A * state.

Definition ret {A} (a : A) : M A := λ s, (Ok a, s).
Definition raise {A} (e : exn) : M A := λ s, (Raise e, s).
Definition bind {A B} (m : M A) (k : A → M B) : M B :=
  λ s, match m s with
       | (Ok a, s') => k a s'
       | (Raise e, s') => (Raise e, s')
       end.

Notation "x <-- m ;; k" := (bind m (λ x, k))
  (at level 100, m at next level, right associativity).
Notation "m ;;; k" := (bind m (λ _, k))
  (at level 100, right associativity).

Definition lift {A} (r : res A) : M A := λ s, (r, s).
Definition lift_err (o : option exn) : M unit :=
  match o with Some e => raise e | None => ret tt end.

(** [try: body except Exception as e: handler(e)]. *)
Definition try_except_Exception {A} (body : M A) (handler : exn → M A) : M A :=
  λ s, match body s with
       | (Raise e, s') => if is_Exception e then handler e s' else (Raise e, s')
       | r => r
       end.

(** [try: body except ImportError: handler]. *)
Definition try_except_ImportError {A} (body : M A) (handler : M A) : M A :=
  λ s, match body s with
       | (Raise e, s') => if is_ImportError e then handler s' else (Raise e, s')
       | r => r
       end.

(** [try: body except: pass]. *)
Definition try_except_pass (body : M unit) : M unit :=
  λ s, match body s with
       | (Raise _, s') => (Ok tt, s')
       | r => r
       end.

Definition print (m : msg) : M unit := λ s, (Ok tt, add_console m s).

(** [Path.exists]. *)
Definition path_exists (p : string) : M bool :=
  λ s, (Ok (bool_decide (is_Some (fs s !! p))), s).

(** [p / q]. *)
Definition joinpath (p q : string) : string := p +:+ "/" +:+ q.

(** [Path.name]: the text after the last slash. *)
Fixpoint name_from (p acc : string) : string :=
  match p with
  | EmptyString => acc
  | String c p' =>
      if Ascii.eqb c "/"%char then name_from p' EmptyString
      else name_from p' (acc +:+ String c EmptyString)
  end.
Definition name (p : string) : string := name_from p EmptyString.

(** [Path.mkdir(exist_ok=True)]. *)
Definition mkdir_exist_ok (p : string) : M unit :=
  λ s, match fs s !! p with
       | Some Dir => (Ok tt, s)
       | Some (File _) => (Raise (FileExistsError p), s)
       | None => (Ok tt, set_fs (insert p Dir) s)
       end.

(** *** The download and extraction functions *)

(** [open(dest, 'wb')]: the file is created, or truncated, on success. *)
Definition open_for_write (W : world) (dest : string) : M unit :=
  lift_err (open_wb W dest) ;;;
  λ s, (Ok tt, set_fs (insert dest (File EmptyString)) s).

(** [f.write(chunk)]. *)
Definition write_chunk (dest chunk : string) : M unit :=
  λ s, match fs s !! dest with
       | Some (File c) => (Ok tt, set_fs (insert dest (File (c +:+ chunk))) s)
       | _ => (Ok tt, set_fs (insert dest (File chunk)) s)
       end.

(** The [while True] loop of [download_file]. *)
Fixpoint read_loop (dest : string) (total : Z) (cs : list string)
    (err : option exn) (downloaded : Z) : M unit :=
  match cs with
  | [] => lift_err err
  | chunk :: cs' =>
      if String.eqb chunk EmptyString then ret tt
      else
        write_chunk dest chunk ;;;
        let downloaded := (downloaded + Z.of_nat (String.length chunk))%Z in
        (if (0 <? total)%Z then print (MsgProgress downloaded total) else ret tt) ;;;
        read_loop dest total cs' err downloaded
  end.

(** Descarga un archivo con barra de progreso. *)
Definition download_file (W : world) (url dest : string) : M bool :=
  e <-- path_exists dest ;;
  if e then
    print (MsgExists (name dest)) ;;;
    ret true
  else
    try_except_Exception
      (print (MsgDownloading (name dest)) ;;;
       response <-- (λ s, (urlopen W url, add_net_log url s)) ;;
       total <-- lift (content_length response) ;;
       open_for_write W dest ;;;
       read_loop dest total (chunks response) (read_error response) 0 ;;;
       print MsgNewline ;;;
       ret true)
      (λ e, print (MsgError e) ;;; ret false).

(** [archive.extractall(out_dir)]. *)
Definition extractall (out_dir : string) (members : list (string * node)) : M unit :=
  λ s, (Ok tt,
        set_fs (λ f, fold_left (λ f m, <[joinpath out_dir (fst m) := snd m]> f)
                       members (<[out_dir := Dir]> f)) s).

(** Opening an archive reads the file at its path. *)
Definition read_archive (reader : string → res (list (string * node)))
    (path : string) : M (list (string * node)) :=
  λ s, match fs s !! path with
       | Some (File c) => (reader c, s)
       | _ => (Raise (FileNotFoundError path), s)
       end.

(** Extrae un archivo ZIP. *)
Definition extract_zip (W : world) (zip_path out_dir : string) : M unit :=
  print (MsgExtracting (name zip_path)) ;;;
  z <-- read_archive (zip_members W) zip_path ;;
  extractall out_dir z.


(** *** Section 3 of the script: the three data sources *)

Definition RAW_DIR : string := "data_raw".

Definition INDIANA_URL : string :=
  "https://data.lhncbc.nlm.nih.gov/public/chest-xray/indiana.zip".
Definition indiana_zip : string := joinpath RAW_DIR "indiana.zip".
Definition indiana_dir : string := joinpath RAW_DIR "indiana".

(** A) the chest X-rays. *)
Definition acquire_indiana (W : world) : M unit :=
  e <-- path_exists indiana_dir ;;
  if negb e then
    ok <-- download_file W INDIANA_URL indiana_zip ;;
    if ok then extract_zip W indiana_zip indiana_dir else ret tt
  else ret tt.




Fixpoint for_each {A} (body : A → M unit) (l : list A) : M unit :=
  match l with
  | [] => ret tt
  | a :: l' => body a ;;; for_each body l'
  end.



(** C) the satellite tiles. *)

Definition eurosat_dir : string := joinpath RAW_DIR "eurosat".

Definition label_names : list string :=
  ["AnnualCrop"; "Forest"; "HerbaceousVegetation"; "Highway";
   "Industrial"; "Pasture"; "PermanentCrop"; "Residential"; "River"; "SeaLake"].

(** [Image.fromarray(img).save(path)]. *)
Definition save_picture (W : world) (path : string) (img : picture) : M unit :=
  bytes <-- lift (image_save W path img) ;;
  λ s, (Ok tt, set_fs (insert path (File bytes)) s).

(** [eurosat_images.append(path)]. *)
Definition append_eurosat_image (path : string) : M unit :=
  λ s, (Ok tt, add_eurosat_image path s).

(** [len(eurosat_images)]. *)
Definition len_eurosat_images : M nat :=
  λ s, (Ok (length (eurosat_images s)), s).

(** The loop over the dataset; [collected] holds the keys of the dict of
    that name, in insertion order. *)
Fixpoint collect_loop (W : world) (ds : list (nat * picture))
    (collected : list string) : M unit :=
  match ds with
  | [] => ret tt
  | (label, img) :: ds' =>
      match nth_error label_names label with
      | None => raise IndexError
      | Some label_name =>
          collected' <--
            (if existsb (String.eqb label_name) collected then ret collected
             else
               let path := joinpath eurosat_dir (label_name +:+ ".png") in
               save_picture W path img ;;;
               append_eurosat_image path ;;;
               ret (collected ++ [label_name])) ;;
          if (3 <=? length collected')%nat then ret tt
          else collect_loop W ds' collected'
      end
  end.

(** The body of the [try]. *)
Definition eurosat_from_tfds (W : world) : M unit :=
  lift_err (import_tfds W) ;;;
  print MsgLoadingEurosat ;;;
  ds <-- lift (tfds_load W) ;;
  mkdir_exist_ok eurosat_dir ;;;
  collect_loop W ds [] ;;;
  n <-- len_eurosat_images ;;
  print (MsgSavedEurosat n).

(** The class names given to the sample pictures and the functions of
    [skimage.data] that load them. *)
Definition fallback_imgs : list (string * string) :=
  [("Residential", "astronaut"); ("River", "coffee"); ("Forest", "grass")].

Definition fallback_path (item : string * string) : string :=
  joinpath eurosat_dir (fst item +:+ ".png").

(** One turn of [for name, func in fallback_imgs], with its bare [except]. *)
Definition fallback_one (W : world) (item : string * string) : M unit :=
  try_except_pass
    (img <-- lift (sample W (snd item)) ;;
     let path := fallback_path item in
     let img_save := if (ndim img =? 3)%nat then rgb2gray_uint8 W img else img in
     save_picture W path img_save ;;;
     append_eurosat_image path).

(** The body of [except ImportError]. *)
Definition eurosat_fallback (W : world) : M unit :=
  print MsgTensorflowMissing ;;;
  mkdir_exist_ok eurosat_dir ;;;
  for_each (fallback_one W) fallback_imgs ;;;
  n <-- len_eurosat_images ;;
  print (MsgFallbackCount n).

Definition reset_eurosat_images : M unit :=
  λ s, (Ok tt, State (fs s) (console s) (net_log s) []).

Definition acquire_eurosat (W : world) : M unit :=
  reset_eurosat_images ;;;
  try_except_ImportError (eurosat_from_tfds W) (eurosat_fallback W).

(** A sample picture is usable when it loads and its file can be written. *)
Definition fallback_loads (W : world) (item : string * string) : bool :=
  match sample W (snd item) with
  | Ok img =>
      match image_save W (fallback_path item)
              (if (ndim img =? 3)%nat then rgb2gray_uint8 W img else img) with
      | Ok _ => true
      | Raise _ => false
      end
  | Raise _ => false
  end.

(** *** Conditions on the world and on the disk *)



(** *** Worlds and states to run the script in *)

(** A fresh checkout: only the staging directory exists. *)
Definition fresh : state :=
  State {[ RAW_DIR := Dir ]} [] [] [].

(** The archive of chest X-rays was downloaded by an earlier run. *)
Definition cached : state :=
  State (<[ indiana_zip := File "PK-indiana" ]> {[ RAW_DIR := Dir ]}) [] [] [].

(** No network and no TensorFlow Datasets; two of the three sample
    pictures ship with scikit-image. *)
Definition offline : world := {|
  urlopen := λ _, Raise (URLError "Network is unreachable");
  open_wb := λ _, None;
  zip_members := λ _, Raise (BadZipFile "File is not a zip file");
  tar_members := λ _, Raise (ReadError "not an lzma file");
  import_tfds := Some (ImportError "tensorflow_datasets");
  tfds_load := Raise (ImportError "tensorflow_datasets");
  image_save := λ _ img, Ok (pixels img);
  sample := λ f, if String.eqb f "grass" then Raise (RuntimeError "pooch is missing")
                 else Ok (Picture 3 f);
  rgb2gray_uint8 := λ img, Picture 2 (pixels img)
|}.

(** The server answers, but what it sends is not an archive. *)
Definition corrupt_server : world := {|
  urlopen := λ _, Ok (Response (Ok 9%Z) ["<html>"; "404"] None);
  open_wb := λ _, None;
  zip_members := λ _, Raise (BadZipFile "File is not a zip file");
  tar_members := λ _, Raise (ReadError "not an lzma file");
  import_tfds := Some (ImportError "tensorflow_datasets");
  tfds_load := Raise (ImportError "tensorflow_datasets");
  image_save := λ _ img, Ok (pixels img);
  sample := λ f, Ok (Picture 3 f);
  rgb2gray_uint8 := λ img, Picture 2 (pixels img)
|}.

(** No TensorFlow Datasets, and no sample picture can be loaded. *)
Definition no_samples : world := {|
  urlopen := λ _, Raise (URLError "Network is unreachable");
  open_wb := λ _, None;
  zip_members := λ _, Raise (BadZipFile "File is not a zip file");
  tar_members := λ _, Raise (ReadError "not an lzma file");
  import_tfds := Some (ImportError "tensorflow_datasets");
  tfds_load := Raise (ImportError "tensorflow_datasets");
  image_save := λ _ img, Ok (pixels img);
  sample := λ _, Raise (RuntimeError "pooch is missing");
  rgb2gray_uint8 := λ img, Picture 2 (pixels img)
|}.

End Script.

(** ** [generar_figuras.py]: the montage of one image *)

Module Figures.
Import Np Py Sk.

Section Montage.
Context {L : SkimageLib}.

(** The list [picks] of the montage loop, the same in both scripts.  A
    subscript on a missing key raises [KeyError]; [None] stands for it. *)
Definition montage_picks (x : ndarray Q) : option (list (string * ndarray Q)) :=
  let S := Main.spatial_filters x in
  let M := Main.morph_filters x 4 in
  let P := Main.pipelines x in
  g ← getitem S "gaussian_s1";
  m ← getitem S "median_r2";
  u ← getitem S "unsharp_r1_a1";
  e ← getitem S "sobel";
  c ← getitem M "closing_r4";
  o ← getitem M "opening_r4";
  p ← getitem P "P1_med3+unsharp";
  Some [ ("original", x); ("gaussian_s1", g); ("median_r2", m);
         ("unsharp", u); ("sobel", e); ("closing_r4", c);
         ("opening_r4", o); ("P1_med+unsharp", p) ].

(** [plt.subplots(2, 4)] gives eight axes; [zip(axes, picks)] draws as
    many panels as the shorter of the two has. *)
Definition montage_axes : nat := 2 * 4.
Definition montage_panels (x : ndarray Q) : option (list (string * ndarray Q)) :=
  picks ← montage_picks x; Some (take montage_axes picks).

End Montage.

(** [save_as_png(src, dst, max_side=512)]: the size [(w, h)] of the picture
    it saves, from the size of the source picture.  A picture that fits is
    saved as it is; for a larger one [img.resize] is asked for
    [(int(w/scale), int(h/scale))]. *)
Definition save_as_png_size (w h : nat) (max_side : Z) : res (nat * nat) :=
  if (max_side =? 0)%Z then Raise ZeroDivisionError
  else
    let scale := inject_Z (Z.of_nat (Nat.max w h)) / inject_Z max_side in
    if Qlt_le_dec 1 scale then
      Ok (Z.to_nat (int_of_float (inject_Z (Z.of_nat w) / scale)),
          Z.to_nat (int_of_float (inject_Z (Z.of_nat h) / scale)))
    else Ok (w, h).

End Figures.

(** ** What a transfer leaves on disk *)

Module Transfer.
Import Py Script.

(** The bytes that the loop of [download_file] writes: the chunks up to
    the first empty one. *)
Fixpoint received (cs : list string) : string :=
  match cs with
  | [] => EmptyString
  | chunk :: cs' =>
      if String.eqb chunk EmptyString then EmptyString
      else chunk +:+ received cs'
  end.

(** Reading meets an empty chunk before the chunks run out. *)
Fixpoint ends_early (cs : list string) : bool :=
  match cs with
  | [] => false
  | chunk :: cs' => if String.eqb chunk EmptyString then true else ends_early cs'
  end.

(** How the loop ends: normally at an empty chunk or at the end of the
    data, with the exception of the failing [read] otherwise. *)
Definition loop_outcome (cs : list string) (err : option exn) : res unit :=
  if ends_early cs then Ok tt
  else match err with Some e => Raise e | None => Ok tt end.

(** The file name of a tile of the given class. *)
Definition tile_path (label_name : string) : string :=
  joinpath eurosat_dir (label_name +:+ ".png").

(** The connection drops after two chunks. *)
Definition flaky_server : world := {|
  urlopen := λ _, Ok (Response (Ok 100%Z) ["PK"; "abc"]
                        (Some (URLError "Connection reset by peer")));
  open_wb := λ _, None;
  zip_members := λ _, Raise (BadZipFile "File is not a zip file");
  tar_members := λ _, Raise (ReadError "not an lzma file");
  import_tfds := Some (ImportError "tensorflow_datasets");
  tfds_load := Raise (ImportError "tensorflow_datasets");
  image_save := λ _ img, Ok (pixels img);
  sample := λ f, Ok (Picture 3 f);
  rgb2gray_uint8 := λ img, Picture 2 (pixels img)
|}.

(** The server delivers the archive of X-rays. *)
Definition good_server : world := {|
  urlopen := λ _, Ok (Response (Ok 5%Z) ["PK"; "abc"] None);
  open_wb := λ _, None;
  zip_members := λ _, Ok [("indiana", Dir); ("indiana/CXR_png", Dir);
                          ("indiana/CXR_png/1.png", File "x-ray")];
  tar_members := λ _, Raise (ReadError "not an lzma file");
  import_tfds := Some (ImportError "tensorflow_datasets");
  tfds_load := Raise (ImportError "tensorflow_datasets");
  image_save := λ _ img, Ok (pixels img);
  sample := λ f, Ok (Picture 3 f);
  rgb2gray_uint8 := λ img, Picture 2 (pixels img)
|}.

End Transfer.

(** ** [generar_figuras.py]: choosing the nine images *)

Module Select.
Import Py Script.

Definition IMG_DIR : string := "images".

(** [IMG_DIR / f"I0{n}.png"]. *)
Definition image_path (n : nat) : string :=
  joinpath IMG_DIR ("I0" +:+ fmt_int n +:+ ".png").

(** [enumerate(l)]. *)
Definition enumerate {A} (l : list A) : list (nat * A) :=
  combine (seq 0 (length l)) l.

(** Position of the last occurrence of a character, [str.rfind]. *)
Fixpoint rfind_from (c : ascii) (s : string) (pos : nat) (found : option nat)
    : option nat :=
  match s with
  | EmptyString => found
  | String a s' =>
      rfind_from c s' (S pos) (if Ascii.eqb a c then Some pos else found)
  end.
Definition rfind (c : ascii) (s : string) : option nat := rfind_from c s 0 None.

(** [Path.stem]: the name up to its last dot, unless that dot starts or
    ends the name. *)
Definition stem (p : string) : string :=
  let n := name p in
  match rfind "."%char n with
  | Some i =>
      if ((0 <? i) && (i <? String.length n - 1))%nat
      then String.substring 0 i n else n
  | None => n
  end.

(** One call [save_as_png(src, dst)] with the tuple appended to
    [selected]: domain, source, description and [dst]. *)
Record pick : Type := Pick {
  src : string;
  domain : string;
  source : string;
  description : string;
  dst : string
}.

(** The three radiographs: [step = len(cxr_images) // 4], then the
    images at [step], [step*2] and [step*3] that pass [idx < len]. *)
Definition select_medical (cxr_images : list string) : list pick :=
  match cxr_images with
  | [] => []
  | _ =>
      let step := (length cxr_images / 4)%nat in
      flat_map
        (λ '(i, idx),
           match nth_error cxr_images idx with
           | Some src =>
               [Pick src "Médica" "Open-I (Indiana CXR)" "Radiografía tórax"
                  (image_path (i + 1))]
           | None => []
           end)
        (enumerate [step; step * 2; step * 3]%nat)
  end.

(** What [cat_dir.iterdir()] yields for one entry: its name, whether it
    is a directory, and [list_images] of it. *)
Record subdir : Type := Subdir {
  sd_name : string;
  sd_is_dir : bool;
  sd_imgs : list string
}.

(** The first entry that is a directory other than [good] and holds an
    image: where the inner loop reaches its [break]. *)
Definition first_defect (subdirs : list subdir) : option (subdir * string) :=
  match List.find (λ sd, sd_is_dir sd && negb (String.eqb (sd_name sd) "good")
                         && negb (bool_decide (sd_imgs sd = [])))
                  subdirs with
  | Some sd =>
      match sd_imgs sd with
      | img :: _ => Some (sd, img)
      | [] => None
      end
  | None => None
  end.

(** The loop over the MVTec categories.  [listing cat] is [None] when
    [mvtec_dir / cat / "test"] does not exist. *)
Fixpoint select_industrial_from (cats : list string)
    (listing : string → option (list subdir)) (industrial_count : nat)
    : list pick :=
  match cats with
  | [] => []
  | cat :: cats' =>
      match listing cat with
      | None => select_industrial_from cats' listing industrial_count
      | Some subdirs =>
          match first_defect subdirs with
          | Some (sd, img) =>
              let idx := (4 + industrial_count)%nat in
              let p := Pick img "Industrial" "MVTec AD"
                         (cat +:+ " (" +:+ sd_name sd +:+ ")") (image_path idx) in
              let industrial_count := (industrial_count + 1)%nat in
              if (3 <=? industrial_count)%nat then [p]
              else p :: select_industrial_from cats' listing industrial_count
          | None =>
              if (3 <=? industrial_count)%nat then []
              else select_industrial_from cats' listing industrial_count
          end
      end
  end.

(** A pick that comes from a defect directory of one of the categories:
    its source is the first image of a directory other than [good], and
    its description names the category and the defect. *)
Definition from_defect (listing : string → option (list subdir))
    (cats : list string) (p : pick) : Prop :=
  ∃ cat subdirs sd,
    In cat cats ∧ listing cat = Some subdirs ∧ In sd subdirs ∧
    sd_is_dir sd = true ∧ sd_name sd ≠ "good" ∧
    head (sd_imgs sd) = Some (src p) ∧
    description p = cat +:+ " (" +:+ sd_name sd +:+ ")".

Definition select_industrial (listing : string → option (list subdir)) : list pick :=
  select_industrial_from ["grid"; "leather"; "metal_nut"] listing 0.

(** The first three satellite tiles. *)
Definition select_satellite (eurosat_images : list string) : list pick :=
  map (λ '(i, src), Pick src "Satélite" "EuroSAT" (stem src) (image_path (7 + i)))
      (enumerate (take 3 eurosat_images)).

(** The list [selected] at the end of section 4. *)
Definition selected (cxr_images : list string)
    (listing : string → option (list subdir)) (eurosat_images : list string)
    : list pick :=
  select_medical cxr_images ++ select_industrial listing
  ++ select_satellite eurosat_images.

End Select.

(** ** [scripts/regenerar_figuras_eurosat.py]: images and metrics *)

Module RegenScript.
Import Np Py Sk Script Select.

(** [f"{i:02d}"]. *)
Definition fmt_02d (i : nat) : string :=
  if (i <? 10)%nat then "0" +:+ fmt_int i else fmt_int i.

Definition exts : list string := [".png"; ".jpg"; ".jpeg"].

(** [IMG_DIR / f"I{i:02d}{ext}"]. *)
Definition candidate (i : nat) (ext : string) : string :=
  joinpath IMG_DIR ("I" +:+ fmt_02d i +:+ ext).

(** The inner loop over the extensions, left at the first file found. *)
Definition find_image (f : gmap string node) (i : nat) : option string :=
  List.find (λ p, bool_decide (is_Some (f !! p))) (map (candidate i) exts).

(** The list [img_paths], for [i] in [range(1, 10)]. *)
Definition img_paths (f : gmap string node) : list string :=
  flat_map (λ i, option_list (find_image f i)) (seq 1 9).

(** Every path the loops may test, in the order they test them. *)
Definition all_candidates : list string :=
  flat_map (λ i, map (candidate i) exts) (seq 1 9).

Definition IMG_INFO : dict (string * string * string) :=
  dict_display [
    ("I01", ("Médica", "Open-I", "Radiografía tórax"));
    ("I02", ("Médica", "Open-I", "Radiografía tórax"));
    ("I03", ("Médica", "Open-I", "Radiografía tórax"));
    ("I04", ("Industrial", "MVTec AD", "Grid (defecto)"));
    ("I05", ("Industrial", "MVTec AD", "Leather (defecto)"));
    ("I06", ("Industrial", "MVTec AD", "Metal nut"));
    ("I07", ("Satélite", "EuroSAT RGB", "River"));
    ("I08", ("Satélite", "EuroSAT RGB", "Highway"));
    ("I09", ("Satélite", "EuroSAT RGB", "Industrial"))
  ].

(** [IMG_INFO.get(img_id, ("", "", ""))]. *)
Definition img_info (img_id : string) : string * string * string :=
  match getitem IMG_INFO img_id with
  | Some info => info
  | None => ("", "", "")
  end.

Definition montage_targets : list string := ["I01"; "I04"; "I07"].

(** The images that get a montage: those whose stem is a target. *)
Definition montage_inputs (f : gmap string node) : list string :=
  List.filter (λ p, existsb (String.eqb (stem p)) montage_targets) (img_paths f).

Definition hist_targets : list string := ["I01"; "I04"; "I07"].

(** The images that get a histogram. *)
Definition hist_inputs (f : gmap string node) : list string :=
  List.filter (λ p, existsb (String.eqb (stem p)) hist_targets) (img_paths f).

(** [np.median] of a flat array: the middle of the sorted values, or the
    mean of the two middle ones.  On an empty array numpy answers [nan];
    [0] stands for it. *)
Fixpoint insert_asc (v : Q) (l : list Q) : list Q :=
  match l with
  | [] => [v]
  | a :: l' => if Qle_bool v a then v :: l else a :: insert_asc v l'
  end.
Definition sort_asc (l : list Q) : list Q := fold_right insert_asc [] l.

Definition np_median (l : list Q) : Q :=
  let s := sort_asc l in
  let n := length l in
  if (n =? 0)%nat then 0
  else if Nat.odd n then nth (n / 2) s 0
  else (nth (n / 2 - 1) s 0 + nth (n / 2) s 0) / 2.

Section Metrics.
Context {L : SkimageLib}.
(** [structural_similarity(x, y, data_range=1.0)] and [np.std]. *)
Variable ssim : ndarray Q → ndarray Q → Q.
Variable std : ndarray Q → Q.

(** Estimacion rapida del ruido. *)
Definition sigma_hat_fast (x : ndarray Q) : Q :=
  let hp := sub x (gaussian x 1 true) in
  let med := np_median (ravel 0 hp) in
  let mad := np_median (ravel 0 (map1 0 (λ v, Qabs (v - med)) hp)) in
  (14826 # 10000) * mad.






End Metrics.

(** A disk with pictures of every kind but I05 and I09. *)
Definition some_images : gmap string node :=
  list_to_map
    [ ("images/I01.png", File "1"); ("images/I02.jpg", File "2");
      ("images/I03.jpeg", File "3"); ("images/I04.png", File "4");
      ("images/I04.jpg", File "4b"); ("images/I06.png", File "6");
      ("images/I07.jpg", File "7"); ("images/I08.jpeg", File "8");
      ("images/notes.txt", File "n") ].

End RegenScript.

(** * Properties *)

Import Np Py Sk.

(** ** Arrays built by [tabulate] *)

Section ArrayFacts.
Context {A : Type}.

Lemma shape_tabulate (sh : nat * nat) (f : nat → nat → A) :
  shape (tabulate sh f) = sh.
Proof. reflexivity. Qed.

Lemma get_tabulate (d : A) (sh : nat * nat) (f : nat → nat → A) (i j : nat) :
  (i < fst sh)%nat → (j < snd sh)%nat → get d (tabulate sh f) i j = f i j.
Proof.
  intros Hi Hj. unfold get, tabulate. cbn [data].
  rewrite (nth_indep _ [] (map (f 0%nat) (seq 0 (snd sh)))).
  2:{ now rewrite length_map, length_seq. }
  change (map (f 0%nat) (seq 0 (snd sh)))
    with ((λ i, map (f i) (seq 0 (snd sh))) 0%nat).
  rewrite map_nth, seq_nth by assumption. cbn.
  rewrite (nth_indep _ d (f i 0%nat)).
  2:{ now rewrite length_map, length_seq. }
  now rewrite map_nth, seq_nth.
Qed.

Lemma wf_tabulate (sh : nat * nat) (f : nat → nat → A) : wf (tabulate sh f).
Proof.
  split; cbn.
  - now rewrite length_map, length_seq.
  - apply Forall_forall. intros r Hr. apply list_elem_of_In, in_map_iff in Hr.
    destruct Hr as (i & <- & _). now rewrite length_map, length_seq.
Qed.

End ArrayFacts.

(** ** Minimum and maximum of a window *)

Section MinMax.

Lemma fold_Qmin_le_init (l : list Q) (a : Q) : fold_left Qmin l a <= a.
Proof.
  revert a. induction l as [|b l IH]; intros a; cbn.
  - apply Qle_refl.
  - eapply Qle_trans; [apply IH | apply Q.le_min_l].
Qed.

Lemma fold_Qmin_le_elem (l : list Q) (a b : Q) :
  In b l → fold_left Qmin l a <= b.
Proof.
  revert a. induction l as [|c l IH]; intros a Hb; [destruct Hb|].
  destruct Hb as [Hb|Hb]; cbn.
  - subst c. eapply Qle_trans; [apply fold_Qmin_le_init | apply Q.le_min_r].
  - now apply IH.
Qed.

Lemma fold_Qmin_glb (l : list Q) (a c : Q) :
  c <= a → (∀ b, In b l → c <= b) → c <= fold_left Qmin l a.
Proof.
  revert a. induction l as [|b l IH]; intros a Ha Hl; cbn; [assumption|].
  apply IH.
  - apply Q.min_glb; [assumption | apply Hl; now left].
  - intros b' Hb'. apply Hl. now right.
Qed.

Lemma fold_Qmax_ge_init (l : list Q) (a : Q) : a <= fold_left Qmax l a.
Proof.
  revert a. induction l as [|b l IH]; intros a; cbn.
  - apply Qle_refl.
  - eapply Qle_trans; [apply Q.le_max_l | apply IH].
Qed.

Lemma fold_Qmax_ge_elem (l : list Q) (a b : Q) :
  In b l → b <= fold_left Qmax l a.
Proof.
  revert a. induction l as [|c l IH]; intros a Hb; [destruct Hb|].
  destruct Hb as [Hb|Hb]; cbn.
  - subst c. eapply Qle_trans; [apply Q.le_max_r | apply fold_Qmax_ge_init].
  - now apply IH.
Qed.

Lemma fold_Qmax_lub (l : list Q) (a c : Q) :
  a <= c → (∀ b, In b l → b <= c) → fold_left Qmax l a <= c.
Proof.
  revert a. induction l as [|b l IH]; intros a Ha Hl; cbn; [assumption|].
  apply IH.
  - apply Q.max_lub; [assumption | apply Hl; now left].
  - intros b' Hb'. apply Hl. now right.
Qed.

Lemma lmin_le (l : list Q) (a : Q) : In a l → lmin l <= a.
Proof.
  destruct l as [|b l]; intros Ha; [destruct Ha|].
  destruct Ha as [Ha|Ha]; cbn.
  - subst. apply fold_Qmin_le_init.
  - now apply fold_Qmin_le_elem.
Qed.

Lemma lmin_glb (l : list Q) (c : Q) :
  l ≠ [] → (∀ a, In a l → c <= a) → c <= lmin l.
Proof.
  destruct l as [|b l]; intros Hne Hl; [congruence|]. cbn.
  apply fold_Qmin_glb.
  - apply Hl. now left.
  - intros a Ha. apply Hl. now right.
Qed.

Lemma lmax_ge (l : list Q) (a : Q) : In a l → a <= lmax l.
Proof.
  destruct l as [|b l]; intros Ha; [destruct Ha|].
  destruct Ha as [Ha|Ha]; cbn.
  - subst. apply fold_Qmax_ge_init.
  - now apply fold_Qmax_ge_elem.
Qed.

Lemma lmax_lub (l : list Q) (c : Q) :
  l ≠ [] → (∀ a, In a l → a <= c) → lmax l <= c.
Proof.
  destruct l as [|b l]; intros Hne Hl; [congruence|]. cbn.
  apply fold_Qmax_lub.
  - apply Hl. now left.
  - intros a Ha. apply Hl. now right.
Qed.

(** The extrema are attained. *)
Lemma fold_Qmin_In (l : list Q) (a : Q) :
  ∃ b, In b (a :: l) ∧ fold_left Qmin l a == b.
Proof.
  revert a. induction l as [|c l IH]; intros a; cbn.
  - exists a. split; [now left | reflexivity].
  - destruct (IH (Qmin a c)) as (b & [Hb|Hb] & Heq).
    + destruct (Q.min_dec a c) as [Hm|Hm].
      * exists a. split; [now left|]. now rewrite Heq, <- Hb.
      * exists c. split; [right; now left|]. now rewrite Heq, <- Hb.
    + exists b. split; [right; now right | assumption].
Qed.

Lemma fold_Qmax_In (l : list Q) (a : Q) :
  ∃ b, In b (a :: l) ∧ fold_left Qmax l a == b.
Proof.
  revert a. induction l as [|c l IH]; intros a; cbn.
  - exists a. split; [now left | reflexivity].
  - destruct (IH (Qmax a c)) as (b & [Hb|Hb] & Heq).
    + destruct (Q.max_dec a c) as [Hm|Hm].
      * exists a. split; [now left|]. now rewrite Heq, <- Hb.
      * exists c. split; [right; now left|]. now rewrite Heq, <- Hb.
    + exists b. split; [right; now right | assumption].
Qed.

End MinMax.

(** ** Reflected borders *)

Section Reflect.

Lemma reflect_lt (n : nat) (z : Z) : (0 < n)%nat → (reflect n z < n)%nat.
Proof.
  intros Hn. unfold reflect.
  pose proof (Z.mod_pos_bound z (2 * Z.of_nat n) ltac:(lia)) as Hm.
  destruct (Z.ltb_spec (z mod (2 * Z.of_nat n)) (Z.of_nat n)); lia.
Qed.

(** A coordinate that reads [k] under reflection differs from [k] or from
    its mirror image [-1 - k] by a multiple of the period [2n]. *)
Lemma reflect_of_congr (n k : nat) (z c : Z) :
  (k < n)%nat →
  (z = Z.of_nat k + 2 * Z.of_nat n * c ∨ z = -1 - Z.of_nat k + 2 * Z.of_nat n * c)%Z →
  reflect n z = k.
Proof.
  intros Hk Hz. unfold reflect.
  destruct Hz as [-> | ->].
  - replace (Z.of_nat k + 2 * Z.of_nat n * c)%Z
      with (Z.of_nat k + c * (2 * Z.of_nat n))%Z by lia.
    rewrite Z_mod_plus_full, Z.mod_small by lia.
    destruct (Z.ltb_spec (Z.of_nat k) (Z.of_nat n)); lia.
  - replace (-1 - Z.of_nat k + 2 * Z.of_nat n * c)%Z
      with ((2 * Z.of_nat n - 1 - Z.of_nat k) + (c - 1) * (2 * Z.of_nat n))%Z by lia.
    rewrite Z_mod_plus_full, Z.mod_small by lia.
    destruct (Z.ltb_spec (2 * Z.of_nat n - 1 - Z.of_nat k) (Z.of_nat n)); lia.
Qed.

Lemma reflect_congr (n : nat) (z : Z) :
  (0 < n)%nat →
  ∃ c, (z = Z.of_nat (reflect n z) + 2 * Z.of_nat n * c ∨
        z = -1 - Z.of_nat (reflect n z) + 2 * Z.of_nat n * c)%Z.
Proof.
  intros Hn. unfold reflect.
  pose proof (Z.mod_pos_bound z (2 * Z.of_nat n) ltac:(lia)) as Hm.
  pose proof (Z.div_mod z (2 * Z.of_nat n) ltac:(lia)) as Hd.
  destruct (Z.ltb_spec (z mod (2 * Z.of_nat n)) (Z.of_nat n)).
  - exists (z / (2 * Z.of_nat n))%Z. left. lia.
  - exists (z / (2 * Z.of_nat n) + 1)%Z. right. lia.
Qed.

(** Reading through the border is symmetric: if [i] sees [q] at offset
    [a], then [q] sees [i] at offset [a] or [-a]. *)
Lemma reflect_back (n i : nat) (a : Z) :
  (i < n)%nat →
  ∃ a', (a' = a ∨ a' = - a)%Z ∧
        reflect n (Z.of_nat (reflect n (Z.of_nat i + a)) + a') = i.
Proof.
  intros Hi.
  destruct (reflect_congr n (Z.of_nat i + a) ltac:(lia)) as [c [Hc|Hc]].
  - exists (- a)%Z. split; [now right|].
    apply reflect_of_congr with (c := (- c)%Z); [assumption|]. left. lia.
  - exists a. split; [now left|].
    apply reflect_of_congr with (c := c); [assumption|]. right. lia.
Qed.

End Reflect.

(** ** Grey morphology on a fixed image domain *)

Section Morphology.
Variable sh : nat * nat.

Abbreviation erode_px := (Sk.erode_px sh).
Abbreviation dilate_px := (Sk.dilate_px sh).
Abbreviation le_on := (Sk.le_on sh).
Abbreviation eq_on := (Sk.eq_on sh).
Abbreviation open_px := (Sk.open_px sh).
Abbreviation close_px := (Sk.close_px sh).

Lemma window_ext (B : list (Z * Z)) (f g : nat → nat → Q) (i j : nat) :
  (0 < fst sh)%nat → (0 < snd sh)%nat → eq_on f g →
  window sh B f i j = window sh B g i j.
Proof.
  intros Hh Hw Hfg. unfold window. apply map_ext. intros b.
  apply Hfg; now apply reflect_lt.
Qed.

Lemma window_nonempty (B : list (Z * Z)) (f : nat → nat → Q) (i j : nat) :
  B ≠ [] → window sh B f i j ≠ [].
Proof. unfold window. destruct B; [congruence | discriminate]. Qed.

Lemma erode_px_ext B f g : eq_on f g → eq_on (erode_px B f) (erode_px B g).
Proof.
  intros Hfg i j Hi Hj. unfold erode_px.
  rewrite (window_ext B f g); [reflexivity | lia | lia | assumption].
Qed.

Lemma dilate_px_ext B f g : eq_on f g → eq_on (dilate_px B f) (dilate_px B g).
Proof.
  intros Hfg i j Hi Hj. unfold dilate_px.
  rewrite (window_ext B f g); [reflexivity | lia | lia | assumption].
Qed.

Lemma erode_px_mono B f g : le_on f g → le_on (erode_px B f) (erode_px B g).
Proof.
  intros Hfg i j Hi Hj. unfold erode_px.
  destruct B as [|b0 B0] eqn:EB; [apply Qle_refl|]. rewrite <- EB.
  apply lmin_glb; [apply window_nonempty; congruence|].
  intros v Hv. unfold window in Hv. apply in_map_iff in Hv.
  destruct Hv as (b & <- & Hb).
  eapply Qle_trans; [| apply Hfg; apply reflect_lt; lia].
  apply lmin_le. unfold window. apply in_map_iff. now exists b.
Qed.

Lemma dilate_px_mono B f g : le_on f g → le_on (dilate_px B f) (dilate_px B g).
Proof.
  intros Hfg i j Hi Hj. unfold dilate_px.
  destruct B as [|b0 B0] eqn:EB; [apply Qle_refl|]. rewrite <- EB.
  apply lmax_lub; [apply window_nonempty; congruence|].
  intros v Hv. unfold window in Hv. apply in_map_iff in Hv.
  destruct Hv as (b & <- & Hb).
  eapply Qle_trans; [apply Hfg; apply reflect_lt; lia|].
  apply lmax_ge. unfold window. apply in_map_iff. now exists b.
Qed.

(** The pixel itself lies in the window of each of its neighbours. *)
Lemma window_back (B B' : list (Z * Z)) (f : nat → nat → Q) (i j : nat) (b : Z * Z) :
  flip_closed B B' → (i < fst sh)%nat → (j < snd sh)%nat → In b B →
  In (f i j)
     (window sh B' f (reflect (fst sh) (Z.of_nat i + fst b))
                     (reflect (snd sh) (Z.of_nat j + snd b))).
Proof.
  intros Hflip Hi Hj Hb. destruct b as [a c]. cbn [fst snd].
  destruct (reflect_back (fst sh) i a Hi) as (a' & Ha' & Hra).
  destruct (reflect_back (snd sh) j c Hj) as (c' & Hc' & Hrc).
  unfold window. apply in_map_iff. exists (a', c'). cbn [fst snd]. split.
  - now rewrite Hra, Hrc.
  - now apply (Hflip a c).
Qed.

(** Dilating an eroded image never exceeds the image. *)
Lemma dilate_erode_le B B' f :
  flip_closed B B' → B ≠ [] → le_on (dilate_px B (erode_px B' f)) f.
Proof.
  intros Hflip Hne i j Hi Hj. unfold dilate_px.
  apply lmax_lub; [now apply window_nonempty|].
  intros v Hv. unfold window in Hv at 1. apply in_map_iff in Hv.
  destruct Hv as (b & <- & Hb).
  apply lmin_le. now apply (window_back B B').
Qed.

(** Eroding a dilated image never falls below the image. *)
Lemma erode_dilate_ge B B' f :
  flip_closed B B' → B ≠ [] → le_on f (erode_px B (dilate_px B' f)).
Proof.
  intros Hflip Hne i j Hi Hj. unfold erode_px.
  apply lmin_glb; [now apply window_nonempty|].
  intros v Hv. unfold window in Hv at 1. apply in_map_iff in Hv.
  destruct Hv as (b & <- & Hb).
  apply lmax_ge. now apply (window_back B B').
Qed.

Lemma open_px_idem B B' f i j :
  flip_closed B B' → flip_closed B' B → B ≠ [] → B' ≠ [] →
  (i < fst sh)%nat → (j < snd sh)%nat →
  open_px B B' (open_px B B' f) i j == open_px B B' f i j.
Proof.
  intros H1 H2 Hne Hne' Hi Hj. apply Qle_antisym.
  - now apply (dilate_erode_le B' B).
  - unfold open_px at 2. apply dilate_px_mono; [|assumption|assumption].
    apply (erode_dilate_ge B B'); assumption.
Qed.

Lemma close_px_idem B B' f i j :
  flip_closed B B' → flip_closed B' B → B ≠ [] → B' ≠ [] →
  (i < fst sh)%nat → (j < snd sh)%nat →
  close_px B B' (close_px B B' f) i j == close_px B B' f i j.
Proof.
  intros H1 H2 Hne Hne' Hi Hj. apply Qle_antisym.
  - unfold close_px at 2. apply erode_px_mono; [|assumption|assumption].
    apply (dilate_erode_le B B'); assumption.
  - now apply (erode_dilate_ge B' B).
Qed.

End Morphology.

(** ** Footprints *)

Section Footprints.

Lemma In_offsets (se : ndarray bool) (a b : Z) :
  In (a, b) (offsets se) ↔
  ∃ a' b', (a' < height se)%nat ∧ (b' < width se)%nat ∧
           get false se a' b' = true ∧
           a = (Z.of_nat a' - Z.of_nat (height se / 2))%Z ∧
           b = (Z.of_nat b' - Z.of_nat (width se / 2))%Z.
Proof.
  unfold offsets. rewrite in_flat_map. split.
  - intros (a' & Ha' & Hin). rewrite in_flat_map in Hin.
    destruct Hin as (b' & Hb' & Hin).
    apply in_seq in Ha', Hb'.
    destruct (get false se a' b') eqn:Hg; [|destruct Hin].
    destruct Hin as [Heq|[]]. inversion Heq; subst.
    exists a', b'. repeat split; first [lia | assumption].
  - intros (a' & b' & Ha' & Hb' & Hg & -> & ->).
    exists a'. split; [apply in_seq; lia|].
    rewrite in_flat_map. exists b'. split; [apply in_seq; lia|].
    rewrite Hg. now left.
Qed.

Lemma half_odd (r : nat) : ((2 * r + 1) / 2 = r)%nat.
Proof.
  pose proof (Nat.div_mod_eq (2 * r + 1) 2).
  pose proof (Nat.mod_upper_bound (2 * r + 1) 2 ltac:(lia)). lia.
Qed.

Lemma height_disk (r : nat) : height (disk r) = (2 * r + 1)%nat.
Proof. reflexivity. Qed.
Lemma width_disk (r : nat) : width (disk r) = (2 * r + 1)%nat.
Proof. reflexivity. Qed.
Lemma height_mirror (se : ndarray bool) : height (mirror_footprint se) = height se.
Proof. reflexivity. Qed.
Lemma width_mirror (se : ndarray bool) : width (mirror_footprint se) = width se.
Proof. reflexivity. Qed.

Lemma get_disk (r a b : nat) :
  (a < 2 * r + 1)%nat → (b < 2 * r + 1)%nat →
  get false (disk r) a b =
  ((Z.of_nat a - Z.of_nat r) * (Z.of_nat a - Z.of_nat r) +
   (Z.of_nat b - Z.of_nat r) * (Z.of_nat b - Z.of_nat r) <=? Z.of_nat r * Z.of_nat r)%Z.
Proof. intros Ha Hb. unfold disk. now rewrite get_tabulate by (cbn [fst snd]; lia). Qed.

Lemma get_mirror (se : ndarray bool) (a b : nat) :
  (a < height se)%nat → (b < width se)%nat →
  get false (mirror_footprint se) a b =
  get false se (height se - 1 - a) (width se - 1 - b).
Proof. intros Ha Hb. unfold mirror_footprint. now rewrite get_tabulate. Qed.

(** The offsets of [disk r] are the integer points of the closed disc. *)
Lemma In_offsets_disk (r : nat) (a b : Z) :
  In (a, b) (offsets (disk r)) ↔
  (- Z.of_nat r <= a <= Z.of_nat r ∧ - Z.of_nat r <= b <= Z.of_nat r ∧
   a * a + b * b <= Z.of_nat r * Z.of_nat r)%Z.
Proof.
  rewrite In_offsets. rewrite height_disk, width_disk, half_odd. split.
  - intros (a' & b' & Ha' & Hb' & Hg & -> & ->).
    rewrite get_disk in Hg by lia.
    apply Z.leb_le in Hg. lia.
  - intros (Ha & Hb & Hd).
    exists (Z.to_nat (a + Z.of_nat r)), (Z.to_nat (b + Z.of_nat r)).
    split; [lia|]. split; [lia|]. split; [|lia].
    rewrite get_disk by lia.
    apply Z.leb_le.
    replace (Z.of_nat (Z.to_nat (a + Z.of_nat r)) - Z.of_nat r)%Z with a by lia.
    replace (Z.of_nat (Z.to_nat (b + Z.of_nat r)) - Z.of_nat r)%Z with b by lia.
    assumption.
Qed.

(** The disc is its own mirror image. *)
Lemma In_offsets_mirror_disk (r : nat) (a b : Z) :
  In (a, b) (offsets (mirror_footprint (disk r))) ↔
  (- Z.of_nat r <= a <= Z.of_nat r ∧ - Z.of_nat r <= b <= Z.of_nat r ∧
   a * a + b * b <= Z.of_nat r * Z.of_nat r)%Z.
Proof.
  rewrite In_offsets.
  rewrite height_mirror, width_mirror, height_disk, width_disk, half_odd. split.
  - intros (a' & b' & Ha' & Hb' & Hg & -> & ->).
    rewrite get_mirror in Hg by (rewrite ?height_disk, ?width_disk; lia).
    rewrite height_disk, width_disk in Hg.
    rewrite get_disk in Hg by lia.
    apply Z.leb_le in Hg. nia.
  - intros (Ha & Hb & Hd).
    exists (Z.to_nat (a + Z.of_nat r)), (Z.to_nat (b + Z.of_nat r)).
    split; [lia|]. split; [lia|]. split; [|lia].
    rewrite get_mirror by (rewrite ?height_disk, ?width_disk; lia).
    rewrite height_disk, width_disk.
    rewrite get_disk by lia.
    apply Z.leb_le. nia.
Qed.

Lemma flip_closed_disk (r : nat) :
  flip_closed (offsets (disk r)) (offsets (mirror_footprint (disk r))).
Proof.
  intros a b a' b' Hin Ha Hb.
  apply In_offsets_disk in Hin. apply In_offsets_mirror_disk.
  destruct Ha as [-> | ->], Hb as [-> | ->]; nia.
Qed.

Lemma flip_closed_mirror_disk (r : nat) :
  flip_closed (offsets (mirror_footprint (disk r))) (offsets (disk r)).
Proof.
  intros a b a' b' Hin Ha Hb.
  apply In_offsets_mirror_disk in Hin. apply In_offsets_disk.
  destruct Ha as [-> | ->], Hb as [-> | ->]; nia.
Qed.

Lemma offsets_disk_nonempty (r : nat) : offsets (disk r) ≠ [].
Proof.
  assert (In (0, 0)%Z (offsets (disk r))) as Hin by (apply In_offsets_disk; nia).
  intros E. rewrite E in Hin. destruct Hin.
Qed.

Lemma offsets_mirror_disk_nonempty (r : nat) :
  offsets (mirror_footprint (disk r)) ≠ [].
Proof.
  assert (In (0, 0)%Z (offsets (mirror_footprint (disk r)))) as Hin
    by (apply In_offsets_mirror_disk; nia).
  intros E. rewrite E in Hin. destruct Hin.
Qed.

End Footprints.

(** ** Opening and closing of an image *)

Section OpenClose.

Lemma get_erosion (x : ndarray Q) (se : ndarray bool) :
  eq_on (shape x) (get 0 (erosion x se))
        (erode_px (shape x) (offsets se) (get 0 x)).
Proof. intros i j Hi Hj. unfold erosion. now rewrite get_tabulate. Qed.

Lemma get_dilation (x : ndarray Q) (se : ndarray bool) :
  eq_on (shape x) (get 0 (dilation x se))
        (dilate_px (shape x) (offsets se) (get 0 x)).
Proof. intros i j Hi Hj. unfold dilation. now rewrite get_tabulate. Qed.

Lemma get_opening (x : ndarray Q) (se : ndarray bool) :
  eq_on (shape x) (get 0 (opening x se))
        (open_px (shape x) (offsets se) (offsets (mirror_footprint se)) (get 0 x)).
Proof.
  intros i j Hi Hj. unfold opening, open_px.
  rewrite (get_dilation (erosion x se)) by assumption.
  change (shape (erosion x se)) with (shape x).
  apply dilate_px_ext; [apply get_erosion | assumption | assumption].
Qed.

Lemma get_closing (x : ndarray Q) (se : ndarray bool) :
  eq_on (shape x) (get 0 (closing x se))
        (close_px (shape x) (offsets se) (offsets (mirror_footprint se)) (get 0 x)).
Proof.
  intros i j Hi Hj. unfold closing, close_px.
  rewrite (get_erosion (dilation x se)) by assumption.
  change (shape (dilation x se)) with (shape x).
  apply erode_px_ext; [apply get_dilation | assumption | assumption].
Qed.

Lemma opening_idem (x : ndarray Q) (se : ndarray bool) :
  flip_closed (offsets se) (offsets (mirror_footprint se)) →
  flip_closed (offsets (mirror_footprint se)) (offsets se) →
  offsets se ≠ [] → offsets (mirror_footprint se) ≠ [] →
  array_eq (opening (opening x se) se) (opening x se).
Proof.
  intros H1 H2 Hne Hne'. split; [reflexivity|].
  change (height (opening (opening x se) se)) with (fst (shape x)).
  change (width (opening (opening x se) se)) with (snd (shape x)).
  intros i j Hi Hj.
  rewrite (get_opening (opening x se)) by assumption.
  change (shape (opening x se)) with (shape x).
  rewrite (get_opening x se i j) by assumption.
  unfold open_px at 1.
  rewrite (dilate_px_ext (shape x) _ _
             (erode_px (shape x) (offsets se)
                (open_px (shape x) (offsets se) (offsets (mirror_footprint se)) (get 0 x))))
    by (try assumption; apply erode_px_ext, get_opening).
  now apply open_px_idem.
Qed.

Lemma closing_idem (x : ndarray Q) (se : ndarray bool) :
  flip_closed (offsets se) (offsets (mirror_footprint se)) →
  flip_closed (offsets (mirror_footprint se)) (offsets se) →
  offsets se ≠ [] → offsets (mirror_footprint se) ≠ [] →
  array_eq (closing (closing x se) se) (closing x se).
Proof.
  intros H1 H2 Hne Hne'. split; [reflexivity|].
  change (height (closing (closing x se) se)) with (fst (shape x)).
  change (width (closing (closing x se) se)) with (snd (shape x)).
  intros i j Hi Hj.
  rewrite (get_closing (closing x se)) by assumption.
  change (shape (closing x se)) with (shape x).
  rewrite (get_closing x se i j) by assumption.
  unfold close_px at 1.
  rewrite (erode_px_ext (shape x) _ _
             (dilate_px (shape x) (offsets se)
                (close_px (shape x) (offsets se) (offsets (mirror_footprint se)) (get 0 x))))
    by (try assumption; apply dilate_px_ext, get_closing).
  now apply close_px_idem.
Qed.

End OpenClose.

(** ** The morphological bank *)

Section MorphBank.

Lemma morph_filters_items (x : ndarray Q) (r : nat) :
  Main.morph_filters x r =
  [ ("opening_r" +:+ fmt_int r, opening x (disk r));
    ("closing_r" +:+ fmt_int r, closing x (disk r));
    ("tophat_r" +:+ fmt_int r, white_tophat x (disk r));
    ("erosion_r" +:+ fmt_int r, erosion x (disk r));
    ("dilation_r" +:+ fmt_int r, dilation x (disk r)) ].
Proof. reflexivity. Qed.

Lemma morph_filters_opening (x : ndarray Q) (r : nat) :
  getitem (Main.morph_filters x r) ("opening_r" +:+ fmt_int r)
  = Some (opening x (disk r)).
Proof. rewrite morph_filters_items. cbn. now rewrite String.eqb_refl. Qed.

Lemma morph_filters_closing (x : ndarray Q) (r : nat) :
  getitem (Main.morph_filters x r) ("closing_r" +:+ fmt_int r)
  = Some (closing x (disk r)).
Proof. rewrite morph_filters_items. cbn. now rewrite String.eqb_refl. Qed.

End MorphBank.

(** C3: opening and closing of the morphological bank are idempotent.
    For every image [x] and radius [r], the [opening_r{r}] entry of
    [morph_filters(x, r)] is [opening(x, disk(r))], and applying the same
    opening to it again returns an equal array; likewise for the
    [closing_r{r}] entry. *)
Theorem morph_opening_closing_idempotent (x : ndarray Q) (r : nat) :
  ∃ o c,
    getitem (Main.morph_filters x r) ("opening_r" +:+ fmt_int r) = Some o ∧
    getitem (Main.morph_filters x r) ("closing_r" +:+ fmt_int r) = Some c ∧
    o = opening x (disk r) ∧ c = closing x (disk r) ∧
    (∃ o', getitem (Main.morph_filters o r) ("opening_r" +:+ fmt_int r) = Some o' ∧
           array_eq o' o) ∧
    (∃ c', getitem (Main.morph_filters c r) ("closing_r" +:+ fmt_int r) = Some c' ∧
           array_eq c' c).
Proof.
  exists (opening x (disk r)), (closing x (disk r)).
  split; [apply morph_filters_opening|].
  split; [apply morph_filters_closing|].
  split; [reflexivity|]. split; [reflexivity|]. split.
  - exists (opening (opening x (disk r)) (disk r)).
    split; [apply morph_filters_opening|].
    apply opening_idem; auto using flip_closed_disk, flip_closed_mirror_disk,
      offsets_disk_nonempty, offsets_mirror_disk_nonempty.
  - exists (closing (closing x (disk r)) (disk r)).
    split; [apply morph_filters_closing|].
    apply closing_idem; auto using flip_closed_disk, flip_closed_mirror_disk,
      offsets_disk_nonempty, offsets_mirror_disk_nonempty.
Qed.

(** ** Elementwise operations and intensity rescaling *)

Section Rescale.

Lemma get_map1 {A B} (d : A) (d' : B) (f : A → B) (x : ndarray A) (i j : nat) :
  (i < height x)%nat → (j < width x)%nat →
  get d' (map1 d f x) i j = f (get d x i j).
Proof. intros Hi Hj. unfold map1. now rewrite get_tabulate. Qed.

Lemma get_map2 {A B C} (da : A) (db : B) (d : C) (f : A → B → C)
    (x : ndarray A) (y : ndarray B) (i j : nat) :
  (i < height x)%nat → (j < width x)%nat →
  get d (map2 da db f x y) i j = f (get da x i j) (get db y i j).
Proof. intros Hi Hj. unfold map2. now rewrite get_tabulate. Qed.

Lemma In_ravel {A} (d : A) (x : ndarray A) (v : A) :
  In v (ravel d x) ↔
  ∃ i j, (i < height x)%nat ∧ (j < width x)%nat ∧ get d x i j = v.
Proof.
  unfold ravel. rewrite in_flat_map. split.
  - intros (i & Hi & Hin). apply in_map_iff in Hin.
    destruct Hin as (j & Hv & Hj). apply in_seq in Hi, Hj.
    exists i, j. repeat split; first [lia | assumption].
  - intros (i & j & Hi & Hj & Hv). exists i. split; [apply in_seq; lia|].
    apply in_map_iff. exists j. split; [assumption | apply in_seq; lia].
Qed.

Lemma amin_le_px (x : ndarray Q) (i j : nat) :
  (i < height x)%nat → (j < width x)%nat → amin x <= get 0 x i j.
Proof. intros Hi Hj. apply lmin_le, In_ravel. now exists i, j. Qed.

Lemma amax_ge_px (x : ndarray Q) (i j : nat) :
  (i < height x)%nat → (j < width x)%nat → get 0 x i j <= amax x.
Proof. intros Hi Hj. apply lmax_ge, In_ravel. now exists i, j. Qed.

Lemma amin_le_amax (x : ndarray Q) : amin x <= amax x.
Proof.
  unfold amin, amax. destruct (ravel 0 x) as [|a l] eqn:E; [apply Qle_refl|].
  cbn. eapply Qle_trans; [apply fold_Qmin_le_init | apply fold_Qmax_ge_init].
Qed.

(** The minimum and the maximum are pixels of the image. *)
Lemma amin_attained (x : ndarray Q) :
  ravel 0 x ≠ [] → some_px 0 (λ v, v == amin x) x.
Proof.
  intros Hne. unfold amin. destruct (ravel 0 x) as [|a l] eqn:E; [congruence|].
  destruct (fold_Qmin_In l a) as (b & Hb & Heq).
  rewrite <- E in Hb. apply In_ravel in Hb. destruct Hb as (i & j & Hi & Hj & Hg).
  exists i, j. repeat split; try assumption. cbn. now rewrite Hg, Heq.
Qed.

Lemma amax_attained (x : ndarray Q) :
  ravel 0 x ≠ [] → some_px 0 (λ v, v == amax x) x.
Proof.
  intros Hne. unfold amax. destruct (ravel 0 x) as [|a l] eqn:E; [congruence|].
  destruct (fold_Qmax_In l a) as (b & Hb & Heq).
  rewrite <- E in Hb. apply In_ravel in Hb. destruct Hb as (i & j & Hi & Hj & Hg).
  exists i, j. repeat split; try assumption. cbn. now rewrite Hg, Heq.
Qed.

Lemma not_constant_nonempty (x : ndarray Q) : ¬ constant_image x → ravel 0 x ≠ [].
Proof.
  intros Hnc E. apply Hnc. unfold constant_image, amin, amax. rewrite E.
  reflexivity.
Qed.

Lemma clipq_bounds (lo hi v : Q) :
  lo <= hi → lo <= clipq lo hi v ∧ clipq lo hi v <= hi.
Proof.
  intros Hle. unfold clipq. split.
  - apply Q.min_glb; [apply Q.le_max_r | assumption].
  - apply Q.le_min_r.
Qed.

Lemma clipq_inside (lo hi v : Q) : lo <= v → v <= hi → clipq lo hi v == v.
Proof.
  intros H1 H2. unfold clipq.
  rewrite (Q.max_l v lo) by assumption. now apply Q.min_l.
Qed.

Lemma shape_rescale_intensity (y : ndarray Q) (r : Q * Q) :
  shape (rescale_intensity y r) = shape y.
Proof.
  unfold rescale_intensity. destruct r as [omin omax].
  now destruct (Qeq_bool (amin y) (amax y)).
Qed.

(** The stretch of a value between the extrema lies in [[0, 1]]. *)
Lemma stretch01 (imin imax v : Q) :
  imin < imax → imin <= v → v <= imax →
  0 <= (v - imin) / (imax - imin) * (1 - 0) + 0 ∧
  (v - imin) / (imax - imin) * (1 - 0) + 0 <= 1.
Proof.
  intros Hlt H1 H2.
  assert ((v - imin) / (imax - imin) * (1 - 0) + 0 == (v - imin) / (imax - imin)) as E
    by (field; lra).
  rewrite E. split.
  - apply Qle_shift_div_l; lra.
  - apply Qle_shift_div_r; lra.
Qed.

Lemma get_rescale_intensity (y : ndarray Q) (i j : nat) :
  (i < height y)%nat → (j < width y)%nat →
  get 0 (rescale_intensity y (0, 1)) i j =
  if Qeq_bool (amin y) (amax y)
  then clipq 0 1 (clipq (amin y) (amax y) (get 0 y i j))
  else (clipq (amin y) (amax y) (get 0 y i j) - amin y) / (amax y - amin y) * (1 - 0) + 0.
Proof.
  intros Hi Hj. unfold rescale_intensity.
  destruct (Qeq_bool (amin y) (amax y)); unfold clip;
    rewrite !get_map1; try reflexivity; try assumption.
Qed.

(** Rescaling to [(0, 1)] always lands in [[0, 1]]. *)
Lemma rescale_intensity_range (y : ndarray Q) :
  all_px 0 (λ v, 0 <= v ∧ v <= 1) (rescale_intensity y (0, 1)).
Proof.
  intros i j Hi Hj.
  unfold height, width in Hi, Hj. rewrite shape_rescale_intensity in Hi, Hj.
  rewrite get_rescale_intensity by assumption.
  destruct (Qeq_bool (amin y) (amax y)) eqn:E.
  - apply clipq_bounds. lra.
  - apply Qeq_bool_neq in E.
    pose proof (amin_le_amax y) as Hle.
    destruct (clipq_bounds (amin y) (amax y) (get 0 y i j) Hle) as [H1 H2].
    apply stretch01; try assumption.
    apply Qlt_leneq. now split.
Qed.

(** Unless the image is constant, rescaling attains both [0] and [1]. *)
Lemma rescale_intensity_span (y : ndarray Q) :
  ¬ constant_image y → spans01 (rescale_intensity y (0, 1)).
Proof.
  intros Hnc. split; [apply rescale_intensity_range|].
  pose proof (amin_le_amax y) as Hle.
  assert (Qeq_bool (amin y) (amax y) = false) as Eb.
  { destruct (Qeq_bool (amin y) (amax y)) eqn:E; [|reflexivity].
    apply Qeq_bool_eq in E. contradiction. }
  assert (amin y < amax y) as Hlt by (apply Qlt_leneq; now split).
  split.
  - destruct (amin_attained y (not_constant_nonempty y Hnc)) as (i & j & Hi & Hj & Hv).
    exists i, j. unfold height, width. rewrite shape_rescale_intensity.
    repeat split; try assumption. cbn beta.
    rewrite get_rescale_intensity, Eb by assumption.
    rewrite clipq_inside by (rewrite Hv; lra). rewrite Hv. field. lra.
  - destruct (amax_attained y (not_constant_nonempty y Hnc)) as (i & j & Hi & Hj & Hv).
    exists i, j. unfold height, width. rewrite shape_rescale_intensity.
    repeat split; try assumption. cbn beta.
    rewrite get_rescale_intensity, Eb by assumption.
    rewrite clipq_inside by (rewrite Hv; lra). rewrite Hv. field. lra.
Qed.

End Rescale.

(** ** The banks *)

Section Banks.
Context {L : SkimageLib}.

Lemma spatial_filters_items (x : ndarray Q) :
  Main.spatial_filters x =
  [ ("gaussian_s1", gaussian x 1 true);
    ("gaussian_s2", gaussian x 2 true);
    ("median_r2", median x (disk 2));
    ("median_r4", median x (disk 4));
    ("unsharp_r1_a1", clip (add x (scale (sub x (gaussian x 1 false)) 1)) 0 1);
    ("sobel", rescale_intensity (sobel x) (0, 1));
    ("laplace", rescale_intensity (abs (laplace x)) (0, 1));
    ("canny_s12", astype_float32_of_bool (canny x (12 # 10))) ].
Proof. reflexivity. Qed.

Lemma pipelines_items (x : ndarray Q) :
  Main.pipelines x =
  [ ("P1_med3+unsharp",
     clip (add (median x (disk 3))
             (scale (sub (median x (disk 3))
                       (gaussian (median x (disk 3)) (15 # 10) false)) (12 # 10))) 0 1);
    ("P2_close+open", opening (closing x (disk 3)) (disk 3)) ].
Proof. reflexivity. Qed.

Lemma morph_keys_NoDup (s : string) :
  NoDup ["opening_r" +:+ s; "closing_r" +:+ s; "tophat_r" +:+ s;
         "erosion_r" +:+ s; "dilation_r" +:+ s].
Proof.
  repeat (apply NoDup_cons; split;
          [rewrite ?elem_of_cons, elem_of_nil; cbn; intuition discriminate|]).
  apply NoDup_nil_2.
Qed.

End Banks.

(** C4: the banks return a fixed set of keys.  [spatial_filters(x)] has
    exactly the eight keys gaussian_s1, gaussian_s2, median_r2, median_r4,
    unsharp_r1_a1, sobel, laplace, canny_s12 and [morph_filters(x, r)]
    exactly the five distinct keys opening_r{r}, closing_r{r}, tophat_r{r},
    erosion_r{r}, dilation_r{r}, whatever the pixels of [x]. *)
Theorem bank_keys_fixed {L : SkimageLib} (x : ndarray Q) (r : nat) :
  keys (Main.spatial_filters x) =
    ["gaussian_s1"; "gaussian_s2"; "median_r2"; "median_r4";
     "unsharp_r1_a1"; "sobel"; "laplace"; "canny_s12"] ∧
  keys (Main.morph_filters x r) =
    ["opening_r" +:+ fmt_int r; "closing_r" +:+ fmt_int r;
     "tophat_r" +:+ fmt_int r; "erosion_r" +:+ fmt_int r;
     "dilation_r" +:+ fmt_int r] ∧
  NoDup (keys (Main.spatial_filters x)) ∧
  NoDup (keys (Main.morph_filters x r)) ∧
  (∀ y, keys (Main.spatial_filters y) = keys (Main.spatial_filters x)) ∧
  (∀ y, keys (Main.morph_filters y r) = keys (Main.morph_filters x r)).
Proof.
  rewrite spatial_filters_items, morph_filters_items. cbn [keys map fst].
  split; [reflexivity|]. split; [reflexivity|]. split.
  { repeat (apply NoDup_cons; split;
            [rewrite ?elem_of_cons, elem_of_nil; intuition discriminate|]).
    apply NoDup_nil_2. }
  split; [apply morph_keys_NoDup|]. split; intros y.
  - now rewrite spatial_filters_items.
  - now rewrite morph_filters_items.
Qed.

(** C8: the banks of the regeneration script are those of the main
    script: [spatial_filters], [morph_filters] and [pipelines] of the two
    files return equal dictionaries on every image and radius. *)
Theorem regen_banks_equal_main {L : SkimageLib} (x : ndarray Q) (r : nat) :
  Main.spatial_filters x = Regen.spatial_filters x ∧
  Main.morph_filters x r = Regen.morph_filters x r ∧
  Main.pipelines x = Regen.pipelines x.
Proof. repeat split. Qed.

(** ** The pipelines *)

Section Pipelines.
Context {L : SkimageLib}.

Lemma get_clip (x : ndarray Q) (lo hi : Q) (i j : nat) :
  (i < height x)%nat → (j < width x)%nat →
  get 0 (clip x lo hi) i j = clipq lo hi (get 0 x i j).
Proof. intros Hi Hj. unfold clip. now rewrite get_map1. Qed.

Lemma clipq_proper (lo hi u v : Q) : u == v → clipq lo hi u == clipq lo hi v.
Proof. intros E. unfold clipq. now rewrite E. Qed.

(** The first pipeline of the code against its wording. *)
Lemma P1_refines (x : ndarray Q) :
  ∃ p1, getitem (Main.pipelines x) "P1_med3+unsharp" = Some p1 ∧
        array_eq p1 (Spec.P1 x).
Proof.
  rewrite pipelines_items. eexists. split; [reflexivity|].
  split; [reflexivity|]. intros i j Hi Hj.
  unfold Spec.P1, Spec.unsharp_mask, Spec.median_denoise.
  change (height (clip _ 0 1)) with (height (median x (disk 3))) in Hi.
  change (width (clip _ 0 1)) with (width (median x (disk 3))) in Hj.
  rewrite !get_clip by assumption.
  unfold add, scale, sub.
  rewrite get_map2 by assumption.
  rewrite get_map1 by assumption.
  rewrite get_map2 by assumption.
  rewrite get_tabulate by assumption.
  apply clipq_proper. ring.
Qed.

Lemma P2_refines (x : ndarray Q) :
  getitem (Main.pipelines x) "P2_close+open" = Some (Spec.P2 x).
Proof. now rewrite pipelines_items. Qed.

End Pipelines.

(** C5: [pipelines(x)] returns exactly two entries, the fixed two-stage
    compositions.  P1 is the median of [x] over a disc of radius 3
    followed by unsharp masking of the denoised image (sigma 1.5, amount
    1.2, kept in [[0, 1]]); P2 is closing followed by opening, each with a
    disc of radius 3.  Both are functions of [x] alone. *)
Theorem pipelines_fixed_compositions {L : SkimageLib} (x : ndarray Q) :
  keys (Main.pipelines x) = ["P1_med3+unsharp"; "P2_close+open"] ∧
  (∃ p1, getitem (Main.pipelines x) "P1_med3+unsharp" = Some p1 ∧
         array_eq p1 (clip (Spec.unsharp_mask (Spec.median_denoise x 3)
                              (15 # 10) (12 # 10)) 0 1)) ∧
  getitem (Main.pipelines x) "P2_close+open"
    = Some (opening (closing x (disk 3)) (disk 3)).
Proof.
  split; [now rewrite pipelines_items|].
  split; [apply P1_refines | apply P2_refines].
Qed.

(** ** Shapes *)

Section Shapes.
Context {L : SkimageLib} {S : SkimageSpec L}.




End Shapes.


(** ** The reference library meets the contract *)

Lemma ref_lib_spec : SkimageSpec Ref.lib.
Proof.
  split; try reflexivity.
  intros x sh lo hi Hh Hw Hx i j Hi Hj.
  change (@resize Ref.lib x sh) with (Ref.ref_resize x sh) in *.
  unfold Ref.ref_resize in *. unfold height, width in Hi, Hj.
  rewrite shape_tabulate in Hi, Hj. rewrite get_tabulate by assumption.
  apply Hx.
  - apply Nat.Div0.div_lt_upper_bound. nia.
  - apply Nat.Div0.div_lt_upper_bound. nia.
Qed.


(** ** Edge entries of the filter bank *)

Section Edges.
Context {L : SkimageLib}.

(** A constant map is only clipped, so it cannot reach both ends. *)
Lemma rescale_constant_not_spanning (y : ndarray Q) :
  constant_image y → ¬ spans01 (rescale_intensity y (0, 1)).
Proof.
  intros Hc (_ & (i & j & Hi & Hj & H0) & (i' & j' & Hi' & Hj' & H1)).
  unfold height, width in Hi, Hj, Hi', Hj'.
  rewrite shape_rescale_intensity in Hi, Hj, Hi', Hj'.
  rewrite get_rescale_intensity in H0, H1 by assumption.
  unfold constant_image in Hc.
  assert (Qeq_bool (amin y) (amax y) = true) as Eb by now apply Qeq_bool_iff.
  rewrite Eb in H0, H1.
  pose proof (amin_le_amax y) as Hle.
  destruct (clipq_bounds (amin y) (amax y) (get 0 y i j) Hle) as [A1 A2].
  destruct (clipq_bounds (amin y) (amax y) (get 0 y i' j') Hle) as [B1 B2].
  assert (clipq (amin y) (amax y) (get 0 y i j)
          == clipq (amin y) (amax y) (get 0 y i' j')) as E by lra.
  rewrite (clipq_proper 0 1 _ _ E) in H0. lra.
Qed.

Lemma rescale_spans_iff (y : ndarray Q) :
  spans01 (rescale_intensity y (0, 1)) ↔ ¬ constant_image y.
Proof.
  split.
  - intros Hs Hc. now apply (rescale_constant_not_spanning y).
  - apply rescale_intensity_span.
Qed.

Lemma astype_bool_binary (m : ndarray bool) :
  all_px 0 (λ v, v = 0 ∨ v = 1) (astype_float32_of_bool m).
Proof.
  intros i j Hi Hj. unfold astype_float32_of_bool.
  rewrite get_map1 by assumption.
  destruct (get false m i j); [now right | now left].
Qed.

End Edges.

(** C6, as the code has it: the [sobel] entry is the Sobel magnitude
    passed through [rescale_intensity] and the [laplace] entry the absolute
    Laplacian passed through it; their values always lie in [[0, 1]], and
    they reach both 0 and 1 exactly when the map is not constant.  The
    [canny_s12] entry is the Canny mask at sigma 1.2 converted to floats,
    so its values are 0 or 1 only. *)
Theorem edge_entries_rescaled {L : SkimageLib} (x : ndarray Q) :
  getitem (Main.spatial_filters x) "sobel"
    = Some (rescale_intensity (sobel x) (0, 1)) ∧
  all_px 0 (λ v, 0 <= v ∧ v <= 1) (rescale_intensity (sobel x) (0, 1)) ∧
  (spans01 (rescale_intensity (sobel x) (0, 1)) ↔ ¬ constant_image (sobel x)) ∧
  getitem (Main.spatial_filters x) "laplace"
    = Some (rescale_intensity (abs (laplace x)) (0, 1)) ∧
  all_px 0 (λ v, 0 <= v ∧ v <= 1) (rescale_intensity (abs (laplace x)) (0, 1)) ∧
  (spans01 (rescale_intensity (abs (laplace x)) (0, 1))
     ↔ ¬ constant_image (abs (laplace x))) ∧
  getitem (Main.spatial_filters x) "canny_s12"
    = Some (astype_float32_of_bool (canny x (12 # 10))) ∧
  all_px 0 (λ v, v = 0 ∨ v = 1) (astype_float32_of_bool (canny x (12 # 10))).
Proof.
  rewrite spatial_filters_items.
  split; [reflexivity|]. split; [apply rescale_intensity_range|].
  split; [apply rescale_spans_iff|].
  split; [reflexivity|]. split; [apply rescale_intensity_range|].
  split; [apply rescale_spans_iff|].
  split; [reflexivity|]. apply astype_bool_binary.
Qed.

(** On a uniformly grey picture the Sobel magnitude vanishes everywhere,
    and the [sobel] entry is the zero map: it does not span [[0, 1]]. *)
Lemma sobel_entry_uniform_not_spanning :
  ∃ x y, @Main.load_gray Ref.lib Ref.gray_flat 512 = Ok x ∧
         getitem (@Main.spatial_filters Ref.lib x) "sobel" = Some y ∧
         all_px 0 (λ v, v == 0) y ∧
         ¬ spans01 y.
Proof.
  eexists. eexists. split; [vm_compute; reflexivity|].
  split; [vm_compute; reflexivity|].
  assert (∀ i j, (i < 2)%nat → (j < 2)%nat →
            get 0 (NdArray (2, 2)%nat [[0 # 65536; 0 # 65536]; [0 # 65536; 0 # 65536]]) i j == 0) as H.
  { intros i j Hi Hj.
    destruct i as [|[|i]]; [| |lia]; (destruct j as [|[|j]]; [| |lia]);
      vm_compute; reflexivity. }
  split; [exact H|].
  intros (_ & _ & (i & j & Hi & Hj & Hv)).
  rewrite (H i j Hi Hj) in Hv. discriminate Hv.
Qed.

(** ** Normalisation *)

Section LoadGray.
Context {L : SkimageLib} {S : SkimageSpec L}.

Lemma inject_Z_pos (z : Z) : (0 < z)%Z → 0 < inject_Z z.
Proof. intros Hz. unfold Qlt. cbn. lia. Qed.

Lemma int_of_float_le (q : Q) (M : Z) :
  q <= inject_Z M → (int_of_float q <= M)%Z.
Proof.
  intros Hq. unfold int_of_float, Qle in *. cbn in Hq.
  apply Z.quot_le_upper_bound; lia.
Qed.


(** The side computed for the resized image never exceeds the bound. *)
Lemma new_side_le (n m : nat) (M : Z) :
  (0 < M)%Z → (n <= m)%nat → (Z.of_nat m > 0)%Z →
  (Z.of_nat (Z.to_nat (int_of_float
     (inject_Z (Z.of_nat n) / (inject_Z (Z.of_nat m) / inject_Z M)))) <= M)%Z.
Proof.
  intros HM Hnm Hm.
  assert (0 < inject_Z M) as HMq by (apply inject_Z_pos; lia).
  assert (0 < inject_Z (Z.of_nat m)) as Hmq by (apply inject_Z_pos; lia).
  assert (inject_Z (Z.of_nat n) <= inject_Z (Z.of_nat m)) as Hle
    by (rewrite <- Zle_Qle; lia).
  assert (0 < inject_Z (Z.of_nat m) / inject_Z M) as Hs
    by (apply Qlt_shift_div_l; lra).
  assert (inject_Z (Z.of_nat n) / (inject_Z (Z.of_nat m) / inject_Z M)
          <= inject_Z M) as Hb.
  { apply Qle_shift_div_r; [assumption|].
    assert (inject_Z M * (inject_Z (Z.of_nat m) / inject_Z M)
            == inject_Z (Z.of_nat m)) as E by (field; lra).
    now rewrite E. }
  apply int_of_float_le in Hb. lia.
Qed.



End LoadGray.



(** * Dataset acquisition *)

Import Script.

(** ** [download_file] *)

Section Download.
Variable W : world.

Lemma write_chunk_frame (dest chunk : string) (s : state) :
  ∃ s', write_chunk dest chunk s = (Ok tt, s') ∧
        net_log s' = net_log s ∧ eurosat_images s' = eurosat_images s ∧
        ∀ p, p ≠ dest → fs s' !! p = fs s !! p.
Proof.
  unfold write_chunk.
  destruct (fs s !! dest) as [[c|]|]; eexists; (split; [reflexivity|]);
    cbn; repeat split; intros p Hp; now rewrite lookup_insert_ne.
Qed.

(** The transfer loop writes to the destination only. *)
Lemma read_loop_frame (dest : string) (total : Z) (cs : list string)
    (err : option exn) (downloaded : Z) (s : state) :
  net_log (snd (read_loop dest total cs err downloaded s)) = net_log s ∧
  ∀ p, p ≠ dest →
    fs (snd (read_loop dest total cs err downloaded s)) !! p = fs s !! p.
Proof.
  revert downloaded s. induction cs as [|chunk cs IH]; intros downloaded s.
  - cbn. destruct err; cbn; auto.
  - cbn [read_loop]. destruct (String.eqb chunk EmptyString); [cbn; auto|].
    destruct (write_chunk_frame dest chunk s) as (s1 & E1 & Hn1 & _ & Hf1).
    set (d' := (downloaded + Z.of_nat (String.length chunk))%Z).
    set (s2 := if (0 <? total)%Z then add_console (MsgProgress d' total) s1 else s1).
    assert ((write_chunk dest chunk ;;;
             (if (0 <? total)%Z then print (MsgProgress d' total) else ret tt) ;;;
             read_loop dest total cs err d') s
            = read_loop dest total cs err d' s2) as E.
    { unfold bind, s2. rewrite E1. now destruct (0 <? total)%Z. }
    rewrite E. destruct (IH d' s2) as [Hn Hf].
    assert (net_log s2 = net_log s1 ∧ fs s2 = fs s1) as [Hn2 Hf2]
      by (unfold s2; now destruct (0 <? total)%Z).
    split.
    + now rewrite Hn, Hn2.
    + intros p Hp. rewrite Hf, Hf2 by assumption. now apply Hf1.
Qed.

(** When the destination exists, nothing but the console changes. *)
Lemma download_file_existing (url dest : string) (s : state) :
  is_Some (fs s !! dest) →
  download_file W url dest s = (Ok true, add_console (MsgExists (name dest)) s).
Proof.
  intros Hex. unfold download_file, bind, path_exists.
  now rewrite bool_decide_eq_true_2.
Qed.

(** What the call does when the destination is missing. *)
Lemma download_file_missing (url dest : string) (s : state) :
  fs s !! dest = None →
  download_file W url dest s =
  try_except_Exception
    (print (MsgDownloading (name dest)) ;;;
     response <-- (λ s, (urlopen W url, add_net_log url s)) ;;
     total <-- lift (content_length response) ;;
     open_for_write W dest ;;;
     read_loop dest total (chunks response) (read_error response) 0 ;;;
     print MsgNewline ;;;
     ret true)
    (λ e, print (MsgError e) ;;; ret false) s.
Proof.
  intros Hno. unfold download_file at 1, bind at 1, path_exists.
  rewrite bool_decide_eq_false_2; [reflexivity|].
  rewrite Hno. intros [? ?]. discriminate.
Qed.



(** Whatever happens, only the destination may change on disk. *)
Lemma download_file_frame (url dest : string) (s : state) (p : string) :
  p ≠ dest → fs (snd (download_file W url dest s)) !! p = fs s !! p.
Proof.
  intros Hp. destruct (fs s !! dest) as [n|] eqn:Hd.
  - now rewrite download_file_existing by (rewrite Hd; eauto).
  - rewrite download_file_missing by assumption.
    unfold try_except_Exception, bind, print, lift, open_for_write, bind, lift_err.
    cbn. destruct (urlopen W url) as [rsp|e]; cbn.
    2:{ destruct (is_Exception e); reflexivity. }
    destruct (content_length rsp) as [total|e]; cbn.
    2:{ destruct (is_Exception e); reflexivity. }
    destruct (open_wb W dest) as [e|]; cbn.
    1:{ destruct (is_Exception e); reflexivity. }
    match goal with
    | |- context [read_loop dest total ?cs ?err ?d ?s0] =>
        pose proof (read_loop_frame dest total cs err d s0) as [_ Hf];
        destruct (read_loop dest total cs err d s0) as [[[]|e] s1]
    end; cbn in *.
    + rewrite Hf by assumption. now rewrite lookup_insert_ne.
    + destruct (is_Exception e); cbn; rewrite Hf by assumption;
        now rewrite lookup_insert_ne.
Qed.

End Download.

(** C10: an existing destination is left alone.  If the destination path
    exists, [download_file] returns [True] at once: no URL is opened and
    the file system is unchanged (only the message that the file exists is
    printed).  Hence the file system or the list of opened URLs changes
    only when the destination did not exist, and no other path is ever
    written. *)
Theorem download_file_skips_existing (W : world) (url dest : string) (s : state) :
  (is_Some (fs s !! dest) →
     download_file W url dest s = (Ok true, add_console (MsgExists (name dest)) s) ∧
     fs (snd (download_file W url dest s)) = fs s ∧
     net_log (snd (download_file W url dest s)) = net_log s) ∧
  (fs (snd (download_file W url dest s)) ≠ fs s → fs s !! dest = None) ∧
  (net_log (snd (download_file W url dest s)) ≠ net_log s → fs s !! dest = None) ∧
  (∀ p, p ≠ dest → fs (snd (download_file W url dest s)) !! p = fs s !! p).
Proof.
  split; [|split; [|split]].
  - intros Hex. rewrite download_file_existing by assumption. auto.
  - intros Hch. destruct (fs s !! dest) eqn:Hd; [|reflexivity].
    exfalso. apply Hch. now rewrite download_file_existing by (rewrite Hd; eauto).
  - intros Hch. destruct (fs s !! dest) eqn:Hd; [|reflexivity].
    exfalso. apply Hch. now rewrite download_file_existing by (rewrite Hd; eauto).
  - intros p Hp. now apply download_file_frame.
Qed.

Lemma download_file_skips_existing_witness :
  is_Some (fs cached !! indiana_zip) ∧
  download_file corrupt_server INDIANA_URL indiana_zip cached
    = (Ok true, add_console (MsgExists (name indiana_zip)) cached) ∧
  fs (snd (download_file corrupt_server INDIANA_URL indiana_zip cached)) = fs cached ∧
  net_log (snd (download_file corrupt_server INDIANA_URL indiana_zip cached))
    = net_log cached.
Proof.
  assert (is_Some (fs cached !! indiana_zip)) as Hex by (vm_compute; eauto).
  split; [exact Hex|].
  exact (proj1 (download_file_skips_existing corrupt_server INDIANA_URL
                  indiana_zip cached) Hex).
Defined.

(** ** Downloads that fail, archives that fail *)

Section Archives.
Variable W : world.




(** A missing archive makes the extraction raise as well. *)
Lemma extract_zip_missing (zip_path out_dir : string) (s : state) :
  fs s !! zip_path = None →
  fst (extract_zip W zip_path out_dir s) = Raise (FileNotFoundError zip_path).
Proof.
  intros Hf. unfold extract_zip, bind, print, read_archive. cbn. now rewrite Hf.
Qed.





End Archives.

Section Reporting.
Variable W : world.




End Reporting.




(** ** The satellite source and its fallback *)

Section Eurosat.
Variable W : world.

(** A sample picture is appended exactly when it loads and is saved;
    a failure is swallowed. *)
Lemma fallback_one_spec (item : string * string) (s : state) :
  ∃ s', fallback_one W item s = (Ok tt, s') ∧
        eurosat_images s' =
          eurosat_images s ++
          (if fallback_loads W item then [fallback_path item] else []) ∧
        fs s' !! eurosat_dir = fs s !! eurosat_dir.
Proof.
  unfold fallback_one, fallback_loads, try_except_pass, bind, lift, save_picture,
    bind, lift, append_eurosat_image.
  destruct (sample W (snd item)) as [img|e].
  2:{ exists s. rewrite app_nil_r. auto. }
  destruct (image_save W (fallback_path item)
              (if (ndim img =? 3)%nat then rgb2gray_uint8 W img else img))
    as [bytes|e].
  2:{ exists s. rewrite app_nil_r. auto. }
  eexists. split; [reflexivity|]. cbn. split; [reflexivity|].
  apply lookup_insert_ne.
  unfold fallback_path, joinpath, eurosat_dir, joinpath, RAW_DIR. cbn. discriminate.
Qed.

Lemma for_each_fallback (items : list (string * string)) (s : state) :
  ∃ s', for_each (fallback_one W) items s = (Ok tt, s') ∧
        eurosat_images s' =
          eurosat_images s ++ map fallback_path (List.filter (fallback_loads W) items).
Proof.
  revert s. induction items as [|item items IH]; intros s.
  - exists s. cbn. now rewrite app_nil_r.
  - destruct (fallback_one_spec item s) as (s1 & E1 & Hi1 & _).
    destruct (IH s1) as (s2 & E2 & Hi2).
    exists s2. split.
    + cbn [for_each]. unfold bind. now rewrite E1.
    + rewrite Hi2, Hi1. cbn [List.filter].
      destruct (fallback_loads W item); cbn [map]; now rewrite <- app_assoc.
Qed.

(** The handler completes unless the directory for the tiles cannot be
    made. *)
Lemma eurosat_fallback_ok (s : state) :
  (∀ c, fs s !! eurosat_dir ≠ Some (File c)) →
  ∃ s', eurosat_fallback W s = (Ok tt, s') ∧
        eurosat_images s' =
          eurosat_images s ++
          map fallback_path (List.filter (fallback_loads W) fallback_imgs).
Proof.
  intros Hdir. unfold eurosat_fallback, bind at 1, print. unfold bind at 1.
  assert (∃ s1, mkdir_exist_ok eurosat_dir (add_console MsgTensorflowMissing s)
                = (Ok tt, s1) ∧ eurosat_images s1 = eurosat_images s) as (s1 & E1 & Hi1).
  { unfold mkdir_exist_ok. cbn [fs add_console].
    destruct (fs s !! eurosat_dir) as [[c|]|] eqn:Hd.
    - exfalso. now apply (Hdir c).
    - eexists. split; reflexivity.
    - eexists. split; reflexivity. }
  rewrite E1. unfold bind at 1.
  destruct (for_each_fallback fallback_imgs s1) as (s2 & E2 & Hi2).
  rewrite E2. unfold bind, len_eurosat_images, print.
  eexists. split; [reflexivity|]. cbn. now rewrite Hi2, Hi1.
Qed.

Lemma acquire_eurosat_ImportError (s : state) (nm : string) :
  import_tfds W = Some (ImportError nm) →
  (∀ c, fs s !! eurosat_dir ≠ Some (File c)) →
  ∃ s', acquire_eurosat W s = (Ok tt, s') ∧
        eurosat_images s' =
          map fallback_path (List.filter (fallback_loads W) fallback_imgs).
Proof.
  intros Himp Hdir.
  unfold acquire_eurosat, bind at 1, reset_eurosat_images, try_except_ImportError.
  unfold eurosat_from_tfds, bind at 1. rewrite Himp. cbn [lift_err raise is_ImportError].
  destruct (eurosat_fallback_ok (State (fs s) (console s) (net_log s) []) Hdir)
    as (s' & E & Hi).
  exists s'. split; [exact E | exact Hi].
Qed.

(** Anything but an [ImportError] leaves the [try] statement. *)
Lemma acquire_eurosat_propagates (s s1 : state) (e : exn) :
  eurosat_from_tfds W (State (fs s) (console s) (net_log s) []) = (Raise e, s1) →
  is_ImportError e = false →
  acquire_eurosat W s = (Raise e, s1).
Proof.
  intros E He.
  unfold acquire_eurosat, bind, reset_eurosat_images, try_except_ImportError.
  now rewrite E, He.
Qed.

(** An exception of [tfds.load] is one of those. *)
Lemma eurosat_load_error (s : state) (e : exn) :
  import_tfds W = None → tfds_load W = Raise e →
  eurosat_from_tfds W s = (Raise e, add_console MsgLoadingEurosat s).
Proof.
  intros Himp Hload. unfold eurosat_from_tfds, bind, print, lift.
  rewrite Himp. cbn. now rewrite Hload.
Qed.

End Eurosat.

(** C7, as the code has it: when importing tensorflow_datasets raises
    [ImportError], the exception is caught and the sample pictures of
    skimage.data stand in: the satellite stage completes, and
    [eurosat_images] holds the path of each of the three samples that could
    be loaded and saved, in order; a sample that fails is skipped silently.
    An exception of the dependency that is not an [ImportError], such as
    one raised by [tfds.load], is not handled and leaves the stage. *)
Theorem eurosat_fallback_on_ImportError (W : world) (s : state) :
  (∀ nm, import_tfds W = Some (ImportError nm) →
         (∀ c, fs s !! eurosat_dir ≠ Some (File c)) →
         ∃ s', acquire_eurosat W s = (Ok tt, s') ∧
               eurosat_images s' =
                 map fallback_path (List.filter (fallback_loads W) fallback_imgs)) ∧
  (∀ e s1,
     eurosat_from_tfds W (State (fs s) (console s) (net_log s) []) = (Raise e, s1) →
     is_ImportError e = false →
     acquire_eurosat W s = (Raise e, s1)) ∧
  (∀ e, import_tfds W = None → tfds_load W = Raise e → is_ImportError e = false →
        fst (acquire_eurosat W s) = Raise e).
Proof.
  split; [intros nm; apply acquire_eurosat_ImportError|].
  split; [intros e s1; apply acquire_eurosat_propagates|].
  intros e Himp Hload He.
  erewrite acquire_eurosat_propagates; [reflexivity | | exact He].
  now apply eurosat_load_error.
Qed.

Lemma eurosat_fallback_on_ImportError_witness :
  import_tfds offline = Some (ImportError "tensorflow_datasets") ∧
  (∀ c, fs fresh !! eurosat_dir ≠ Some (File c)) ∧
  ∃ s', acquire_eurosat offline fresh = (Ok tt, s') ∧
        eurosat_images s' =
          map fallback_path (List.filter (fallback_loads offline) fallback_imgs).
Proof.
  assert (∀ c, fs fresh !! eurosat_dir ≠ Some (File c)) as Hdir
    by (intros c; vm_compute; discriminate).
  split; [reflexivity|]. split; [exact Hdir|].
  exact (proj1 (eurosat_fallback_on_ImportError offline fresh)
           "tensorflow_datasets" eq_refl Hdir).
Defined.

(** Without TensorFlow Datasets and with no sample picture available the
    stage still completes, and [eurosat_images] is empty. *)
Lemma eurosat_fallback_can_be_empty :
  import_tfds no_samples = Some (ImportError "tensorflow_datasets") ∧
  fst (acquire_eurosat no_samples fresh) = Ok tt ∧
  eurosat_images (snd (acquire_eurosat no_samples fresh)) = [] ∧
  console (snd (acquire_eurosat no_samples fresh))
    = [MsgTensorflowMissing; MsgFallbackCount 0].
Proof. vm_compute. repeat split. Qed.

(** ** Runs on small images *)

(** Opening with the disc of radius 1 removes an isolated bright pixel,
    and opening the result once more changes nothing. *)
Example opening_removes_spot :
  opening Ref.spot3 (disk 1)
    = NdArray (3, 3)%nat [[0; 0; 0]; [0; 0; 0]; [0; 0; 0]] ∧
  opening (opening Ref.spot3 (disk 1)) (disk 1) = opening Ref.spot3 (disk 1).
Proof. split; vm_compute; reflexivity. Qed.

(** The disc of radius 1 is the cross. *)
Example disk_1 :
  disk 1 = NdArray (3, 3)%nat
             [[false; true; false]; [true; true; true]; [false; true; false]].
Proof. vm_compute. reflexivity. Qed.

(** A 2x3 picture normalised with bound 2 becomes 1x2. *)
Example load_gray_2x3 :
  ∃ y, @Main.load_gray Ref.lib Ref.gray_2x3 2 = Ok y ∧ shape y = (1, 2)%nat.
Proof. eexists. split; vm_compute; reflexivity. Qed.

(** * Further properties of the banks *)

(** ** Order between the morphological entries *)

Section MorphOrder.
Variable sh : nat * nat.

Lemma reflect_inside (n i : nat) : (i < n)%nat → reflect n (Z.of_nat i + 0) = i.
Proof.
  intros Hi. apply reflect_of_congr with (c := 0%Z); [assumption|]. left. lia.
Qed.

(** A footprint that holds its centre makes erosion shrink and dilation
    grow. *)
Lemma erode_px_le (B : list (Z * Z)) (f : nat → nat → Q) :
  In (0, 0)%Z B → le_on sh (erode_px sh B f) f.
Proof.
  intros H0 i j Hi Hj. unfold erode_px. apply lmin_le.
  unfold window. apply in_map_iff. exists (0, 0)%Z. split; [|assumption].
  cbn [fst snd]. now rewrite !reflect_inside.
Qed.

Lemma dilate_px_ge (B : list (Z * Z)) (f : nat → nat → Q) :
  In (0, 0)%Z B → le_on sh f (dilate_px sh B f).
Proof.
  intros H0 i j Hi Hj. unfold dilate_px. apply lmax_ge.
  unfold window. apply in_map_iff. exists (0, 0)%Z. split; [|assumption].
  cbn [fst snd]. now rewrite !reflect_inside.
Qed.

(** Minimum and maximum over a window stay within bounds that hold on the
    whole image. *)
Lemma erode_px_bounds (B : list (Z * Z)) (f : nat → nat → Q) (lo hi : Q) :
  B ≠ [] →
  (∀ i j, (i < fst sh)%nat → (j < snd sh)%nat → lo <= f i j ∧ f i j <= hi) →
  ∀ i j, (i < fst sh)%nat → (j < snd sh)%nat →
    lo <= erode_px sh B f i j ∧ erode_px sh B f i j <= hi.
Proof.
  intros Hne Hf i j Hi Hj. unfold erode_px. split.
  - apply lmin_glb; [now apply window_nonempty|].
    intros v Hv. unfold window in Hv. apply in_map_iff in Hv.
    destruct Hv as (b & <- & _). apply Hf; apply reflect_lt; lia.
  - destruct B as [|b B]; [congruence|].
    eapply Qle_trans; [apply lmin_le; unfold window; cbn [map]; now left|].
    apply Hf; apply reflect_lt; lia.
Qed.

Lemma dilate_px_bounds (B : list (Z * Z)) (f : nat → nat → Q) (lo hi : Q) :
  B ≠ [] →
  (∀ i j, (i < fst sh)%nat → (j < snd sh)%nat → lo <= f i j ∧ f i j <= hi) →
  ∀ i j, (i < fst sh)%nat → (j < snd sh)%nat →
    lo <= dilate_px sh B f i j ∧ dilate_px sh B f i j <= hi.
Proof.
  intros Hne Hf i j Hi Hj. unfold dilate_px. split.
  - destruct B as [|b B]; [congruence|].
    eapply Qle_trans; [|apply lmax_ge; unfold window; cbn [map]; now left].
    apply Hf; apply reflect_lt; lia.
  - apply lmax_lub; [now apply window_nonempty|].
    intros v Hv. unfold window in Hv. apply in_map_iff in Hv.
    destruct Hv as (b & <- & _). apply Hf; apply reflect_lt; lia.
Qed.

End MorphOrder.

Section MorphEntries.

Lemma centre_in_disk (r : nat) : In (0, 0)%Z (offsets (disk r)).
Proof. apply In_offsets_disk. nia. Qed.

Lemma centre_in_mirror_disk (r : nat) :
  In (0, 0)%Z (offsets (mirror_footprint (disk r))).
Proof. apply In_offsets_mirror_disk. nia. Qed.

(** Pixel by pixel: erosion <= opening <= image <= closing <= dilation. *)
Lemma morph_chain (x : ndarray Q) (r : nat) (i j : nat) :
  (i < height x)%nat → (j < width x)%nat →
  get 0 (erosion x (disk r)) i j <= get 0 (opening x (disk r)) i j ∧
  get 0 (opening x (disk r)) i j <= get 0 x i j ∧
  get 0 x i j <= get 0 (closing x (disk r)) i j ∧
  get 0 (closing x (disk r)) i j <= get 0 (dilation x (disk r)) i j.
Proof.
  intros Hi Hj.
  rewrite (get_opening x (disk r) i j), (get_closing x (disk r) i j),
    (get_erosion x (disk r) i j), (get_dilation x (disk r) i j) by assumption.
  unfold open_px, close_px. repeat split.
  - apply dilate_px_ge; [apply centre_in_mirror_disk | assumption | assumption].
  - apply (dilate_erode_le (shape x) (offsets (mirror_footprint (disk r)))
             (offsets (disk r)));
      auto using flip_closed_mirror_disk, offsets_mirror_disk_nonempty.
  - apply (erode_dilate_ge (shape x) (offsets (mirror_footprint (disk r)))
             (offsets (disk r)));
      auto using flip_closed_mirror_disk, offsets_mirror_disk_nonempty.
  - apply erode_px_le; [apply centre_in_mirror_disk | assumption | assumption].
Qed.

Lemma get_white_tophat (x : ndarray Q) (se : ndarray bool) (i j : nat) :
  (i < height x)%nat → (j < width x)%nat →
  get 0 (white_tophat x se) i j = get 0 x i j - get 0 (opening x se) i j.
Proof. intros Hi Hj. unfold white_tophat, sub. now rewrite get_map2. Qed.

Lemma erosion_bounds (x : ndarray Q) (r : nat) (lo hi : Q) :
  all_px 0 (λ v, lo <= v ∧ v <= hi) x →
  all_px 0 (λ v, lo <= v ∧ v <= hi) (erosion x (disk r)).
Proof.
  intros Hx i j Hi Hj. rewrite (get_erosion x (disk r) i j) by assumption.
  apply erode_px_bounds; auto using offsets_disk_nonempty.
Qed.

Lemma dilation_bounds (x : ndarray Q) (r : nat) (lo hi : Q) :
  all_px 0 (λ v, lo <= v ∧ v <= hi) x →
  all_px 0 (λ v, lo <= v ∧ v <= hi) (dilation x (disk r)).
Proof.
  intros Hx i j Hi Hj. rewrite (get_dilation x (disk r) i j) by assumption.
  apply dilate_px_bounds; auto using offsets_disk_nonempty.
Qed.

End MorphEntries.

(** X1: the entries of the morphological bank are ordered.  For every
    image and radius, at every pixel, erosion <= opening <= image <=
    closing <= dilation, and the top-hat entry, the image minus its
    opening, is never negative. *)
Theorem morph_bank_ordered (x : ndarray Q) (r : nat) :
  ∃ o c t e d,
    Main.morph_filters x r =
      [ ("opening_r" +:+ fmt_int r, o); ("closing_r" +:+ fmt_int r, c);
        ("tophat_r" +:+ fmt_int r, t); ("erosion_r" +:+ fmt_int r, e);
        ("dilation_r" +:+ fmt_int r, d) ] ∧
    ∀ i j, (i < height x)%nat → (j < width x)%nat →
      get 0 e i j <= get 0 o i j ∧ get 0 o i j <= get 0 x i j ∧
      get 0 x i j <= get 0 c i j ∧ get 0 c i j <= get 0 d i j ∧
      get 0 t i j == get 0 x i j - get 0 o i j ∧ 0 <= get 0 t i j.
Proof.
  do 5 eexists. split; [apply morph_filters_items|].
  intros i j Hi Hj.
  destruct (morph_chain x r i j Hi Hj) as (H1 & H2 & H3 & H4).
  rewrite get_white_tophat by assumption.
  repeat split; try assumption; try reflexivity; lra.
Qed.

(** X2: the morphological bank keeps an image in its range.  If all
    pixels of [x] lie in [[0, 1]], so do all pixels of the five entries of
    [morph_filters(x, r)]. *)
Theorem morph_bank_normalized (x : ndarray Q) (r : nat) :
  all_px 0 (λ v, 0 <= v ∧ v <= 1) x →
  Forall (λ y, shape y = shape x ∧ all_px 0 (λ v, 0 <= v ∧ v <= 1) y)
    (values (Main.morph_filters x r)).
Proof.
  intros Hx. rewrite morph_filters_items. cbn [values map snd].
  assert (∀ y, shape y = shape x →
            (∀ i j, (i < height x)%nat → (j < width x)%nat →
                    0 <= get 0 y i j ∧ get 0 y i j <= 1) →
            shape y = shape x ∧ all_px 0 (λ v, 0 <= v ∧ v <= 1) y) as Hmk.
  { intros y Hs Hy. split; [assumption|]. intros i j Hi Hj.
    unfold height, width in Hi, Hj. rewrite Hs in Hi, Hj. now apply Hy. }
  pose proof (erosion_bounds x r 0 1 Hx) as He.
  pose proof (dilation_bounds x r 0 1 Hx) as Hd.
  repeat apply Forall_cons_2; try apply Forall_nil_2; apply Hmk;
    try reflexivity; intros i j Hi Hj;
    destruct (morph_chain x r i j Hi Hj) as (H1 & H2 & H3 & H4);
    specialize (He i j Hi Hj); specialize (Hd i j Hi Hj);
    specialize (Hx i j Hi Hj); cbn beta in *;
    rewrite ?get_white_tophat by assumption; lra.
Qed.

Lemma morph_bank_normalized_witness :
  all_px 0 (λ v, 0 <= v ∧ v <= 1) Ref.spot3 ∧
  Forall (λ y, shape y = shape Ref.spot3 ∧ all_px 0 (λ v, 0 <= v ∧ v <= 1) y)
    (values (Main.morph_filters Ref.spot3 1)).
Proof.
  assert (all_px 0 (λ v, 0 <= v ∧ v <= 1) Ref.spot3) as Hx.
  { intros i j Hi Hj. cbn in Hi, Hj.
    destruct i as [|[|[|i]]]; [| | |lia];
      (destruct j as [|[|[|j]]]; [| | |lia]); cbn; lra. }
  split; [exact Hx|]. exact (morph_bank_normalized Ref.spot3 1 Hx).
Defined.

(** ** Closing followed by opening *)

Section CloseOpen.
Variable sh : nat * nat.
Variables B B' : list (Z * Z).
Hypothesis HBB' : flip_closed B B'.
Hypothesis HB'B : flip_closed B' B.
Hypothesis HB : B ≠ [].
Hypothesis HB' : B' ≠ [].

Lemma open_px_ext f g :
  eq_on sh f g → eq_on sh (open_px sh B B' f) (open_px sh B B' g).
Proof. intros H. unfold open_px. now apply dilate_px_ext, erode_px_ext. Qed.

Lemma close_px_ext f g :
  eq_on sh f g → eq_on sh (close_px sh B B' f) (close_px sh B B' g).
Proof. intros H. unfold close_px. now apply erode_px_ext, dilate_px_ext. Qed.

Lemma open_px_mono f g :
  le_on sh f g → le_on sh (open_px sh B B' f) (open_px sh B B' g).
Proof. intros H. unfold open_px. now apply dilate_px_mono, erode_px_mono. Qed.

Lemma close_px_mono f g :
  le_on sh f g → le_on sh (close_px sh B B' f) (close_px sh B B' g).
Proof. intros H. unfold close_px. now apply erode_px_mono, dilate_px_mono. Qed.

Lemma open_px_le f : le_on sh (open_px sh B B' f) f.
Proof. unfold open_px. now apply dilate_erode_le. Qed.

Lemma close_px_ge f : le_on sh f (close_px sh B B' f).
Proof. unfold close_px. now apply erode_dilate_ge. Qed.

Lemma le_on_trans f g h : le_on sh f g → le_on sh g h → le_on sh f h.
Proof. intros H1 H2 i j Hi Hj. eapply Qle_trans; [now apply H1 | now apply H2]. Qed.

(** Opening a closed image is idempotent. *)
Lemma open_close_px_idem f i j :
  (i < fst sh)%nat → (j < snd sh)%nat →
  open_px sh B B' (close_px sh B B' (open_px sh B B' (close_px sh B B' f))) i j
  == open_px sh B B' (close_px sh B B' f) i j.
Proof.
  intros Hi Hj. apply Qle_antisym.
  - apply open_px_mono; [|assumption|assumption].
    apply le_on_trans with (close_px sh B B' (close_px sh B B' f)).
    + apply close_px_mono, open_px_le.
    + intros a b Ha Hb. apply Qle_lteq. right. now apply close_px_idem.
  - apply le_on_trans
      with (open_px sh B B' (open_px sh B B' (close_px sh B B' f)));
      [| |assumption|assumption].
    + intros a b Ha Hb. apply Qle_lteq. right. symmetry. now apply open_px_idem.
    + apply open_px_mono, close_px_ge.
Qed.

End CloseOpen.

Section P2.

Lemma get_open_close (x : ndarray Q) (se : ndarray bool) :
  eq_on (shape x) (get 0 (opening (closing x se) se))
    (open_px (shape x) (offsets se) (offsets (mirror_footprint se))
       (close_px (shape x) (offsets se) (offsets (mirror_footprint se)) (get 0 x))).
Proof.
  intros i j Hi Hj.
  rewrite (get_opening (closing x se) se i j) by assumption.
  change (shape (closing x se)) with (shape x).
  apply open_px_ext; [apply get_closing | assumption | assumption].
Qed.

Lemma open_close_idem (x : ndarray Q) (r : nat) :
  array_eq
    (opening (closing (opening (closing x (disk r)) (disk r)) (disk r)) (disk r))
    (opening (closing x (disk r)) (disk r)).
Proof.
  split; [reflexivity|].
  change (height (opening (closing (opening (closing x (disk r)) (disk r))
                            (disk r)) (disk r))) with (fst (shape x)).
  change (width (opening (closing (opening (closing x (disk r)) (disk r))
                           (disk r)) (disk r))) with (snd (shape x)).
  intros i j Hi Hj.
  rewrite (get_open_close (opening (closing x (disk r)) (disk r)) (disk r) i j)
    by assumption.
  change (shape (opening (closing x (disk r)) (disk r))) with (shape x).
  rewrite (get_open_close x (disk r) i j) by assumption.
  rewrite (open_px_ext (shape x) _ _ _ _
             (close_px_ext (shape x) _ _ _ _ (get_open_close x (disk r))) i j)
    by assumption.
  apply open_close_px_idem;
    auto using flip_closed_disk, flip_closed_mirror_disk,
      offsets_disk_nonempty, offsets_mirror_disk_nonempty.
Qed.

End P2.

(** X3: the second pipeline is idempotent.  Feeding the [P2_close+open]
    entry of [pipelines(x)] to [pipelines] again gives a [P2_close+open]
    entry equal to it. *)
Theorem pipeline_P2_idempotent {L : SkimageLib} (x : ndarray Q) :
  ∃ p p',
    getitem (Main.pipelines x) "P2_close+open" = Some p ∧
    getitem (Main.pipelines p) "P2_close+open" = Some p' ∧
    array_eq p' p.
Proof.
  exists (opening (closing x (disk 3)) (disk 3)).
  eexists. split; [now rewrite pipelines_items|].
  split; [now rewrite pipelines_items|]. apply open_close_idem.
Qed.

(** * Figures *)

Import Figures.

(** ** The montage *)

Section Montage.
Context {L : SkimageLib}.

Lemma fmt_int_4 : fmt_int 4 = "4".
Proof. reflexivity. Qed.

Lemma montage_picks_eq (x : ndarray Q) :
  montage_picks x =
  Some [ ("original", x);
         ("gaussian_s1", gaussian x 1 true);
         ("median_r2", median x (disk 2));
         ("unsharp", clip (add x (scale (sub x (gaussian x 1 false)) 1)) 0 1);
         ("sobel", rescale_intensity (sobel x) (0, 1));
         ("closing_r4", closing x (disk 4));
         ("opening_r4", opening x (disk 4));
         ("P1_med+unsharp",
          clip (add (median x (disk 3))
                  (scale (sub (median x (disk 3))
                            (gaussian (median x (disk 3)) (15 # 10) false))
                     (12 # 10))) 0 1) ].
Proof.
  unfold montage_picks.
  rewrite spatial_filters_items, morph_filters_items, pipelines_items, fmt_int_4.
  reflexivity.
Qed.

End Montage.

(** X4: every montage is complete.  None of the seven subscripts of the
    montage loop hits a missing key (the morphological bank is built with
    radius 4, so its keys are [closing_r4] and [opening_r4]); the eight
    picks fill the eight axes exactly, in the order original, gaussian_s1,
    median_r2, unsharp, sobel, closing_r4, opening_r4, P1_med+unsharp, and
    when the library filters keep the shape every panel has the shape of
    the image. *)
Theorem montage_panels_complete {L : SkimageLib} (S : SkimageSpec L)
    (x : ndarray Q) :
  ∃ panels,
    montage_picks x = Some panels ∧ montage_panels x = Some panels ∧
    map fst panels =
      ["original"; "gaussian_s1"; "median_r2"; "unsharp"; "sobel";
       "closing_r4"; "opening_r4"; "P1_med+unsharp"] ∧
    length panels = montage_axes ∧
    Forall (λ p, shape (snd p) = shape x) panels.
Proof.
  eexists. split; [apply montage_picks_eq|].
  split; [unfold montage_panels; rewrite montage_picks_eq; reflexivity|].
  split; [reflexivity|]. split; [reflexivity|].
  repeat apply Forall_cons_2; try apply Forall_nil_2; cbn [snd];
    try reflexivity.
  - apply gaussian_shape.
  - apply median_shape.
  - rewrite shape_rescale_intensity. apply sobel_shape.
  - apply median_shape.
Qed.

Lemma montage_panels_complete_witness :
  SkimageSpec Ref.lib ∧
  ∃ panels,
    @montage_picks Ref.lib Ref.step3 = Some panels ∧
    @montage_panels Ref.lib Ref.step3 = Some panels ∧
    map fst panels =
      ["original"; "gaussian_s1"; "median_r2"; "unsharp"; "sobel";
       "closing_r4"; "opening_r4"; "P1_med+unsharp"] ∧
    length panels = montage_axes ∧
    Forall (λ p, shape (snd p) = shape Ref.step3) panels.
Proof.
  split; [exact ref_lib_spec|].
  exact (@montage_panels_complete Ref.lib ref_lib_spec Ref.step3).
Defined.

(** ** Sizes *)

Section Sizes.
Context {L : SkimageLib}.

Lemma inject_Z_nonneg (z : Z) : (0 <= z)%Z → 0 <= inject_Z z.
Proof. intros Hz. unfold Qle. cbn. lia. Qed.

(** Dividing a side by a scale above one cannot lengthen it. *)
Lemma shrunk_side_le (n : nat) (s : Q) :
  1 < s →
  (Z.to_nat (int_of_float (inject_Z (Z.of_nat n) / s)) <= n)%nat.
Proof.
  intros Hs.
  assert (inject_Z (Z.of_nat n) / s <= inject_Z (Z.of_nat n)) as Hb.
  { apply Qle_shift_div_r; [lra|].
    pose proof (inject_Z_nonneg (Z.of_nat n) ltac:(lia)) as Hn.
    nra. }
  apply int_of_float_le in Hb. lia.
Qed.

(** The scale is at most one exactly when the longer side fits. *)
Lemma scale_fits (m : nat) (M : Z) :
  (0 < M)%Z →
  (inject_Z (Z.of_nat m) / inject_Z M <= 1 ↔ (Z.of_nat m <= M)%Z).
Proof.
  intros HM. pose proof (inject_Z_pos M HM) as HMq.
  rewrite Zle_Qle. split; intros H.
  - assert (inject_Z (Z.of_nat m)
            == inject_Z (Z.of_nat m) / inject_Z M * inject_Z M) as E
      by (field; lra).
    set (t := inject_Z (Z.of_nat m) / inject_Z M) in *.
    assert (t * inject_Z M <= 1 * inject_Z M) as H1
      by (apply Qmult_le_compat_r; lra).
    rewrite Qmult_1_l in H1. now rewrite <- E in H1.
  - apply Qle_shift_div_r; lra.
Qed.

(** An image that fits is only contrast-stretched. *)
Lemma load_gray_fits (arr : ndarray Z) (max_side : Z) :
  (0 < max_side)%Z →
  (Z.of_nat (Nat.max (height arr) (width arr)) <= max_side)%Z →
  Main.load_gray arr max_side =
  Ok (rescale_intensity
        (map1 0 (λ v, v / 255) (astype_float32_of_uint8 arr)) (0, 1)).
Proof.
  intros HM Hfit. unfold Main.load_gray.
  rewrite shape_rescale_intensity.
  change (shape (map1 0 (λ v, v / 255) (astype_float32_of_uint8 arr)))
    with (shape arr).
  destruct (shape arr) as [h w] eqn:Esh.
  unfold height, width in Hfit. rewrite Esh in Hfit. cbn [fst snd] in Hfit.
  destruct (Z.eqb_spec max_side 0) as [E0|_]; [lia|].
  destruct (Qlt_le_dec 1 (inject_Z (Z.of_nat (Nat.max h w)) / inject_Z max_side))
    as [Hgt|Hle]; [|reflexivity].
  exfalso. apply (scale_fits (Nat.max h w) max_side HM) in Hfit. lra.
Qed.

End Sizes.

(** ** Normalisation of an image that fits *)

Section Stretch.
Context {L : SkimageLib}.

Lemma get_scaled (arr : ndarray Z) (i j : nat) :
  (i < height arr)%nat → (j < width arr)%nat →
  get 0 (map1 0 (λ v, v / 255) (astype_float32_of_uint8 arr)) i j
  = inject_Z (get 0%Z arr i j) / 255.
Proof.
  intros Hi Hj. rewrite get_map1 by assumption.
  unfold astype_float32_of_uint8. now rewrite get_map1.
Qed.

Lemma inject_Z_div_inj (a b : Z) : inject_Z a / 255 == inject_Z b / 255 → a = b.
Proof.
  intros E. assert (inject_Z a == inject_Z b) as E'.
  { assert (inject_Z a == inject_Z a / 255 * 255) as -> by field.
    rewrite E. field. }
  unfold Qeq in E'. cbn in E'. lia.
Qed.

(** Two different grey levels make the scaled image non-constant. *)
Lemma scaled_not_constant (arr : ndarray Z) (i j i' j' : nat) :
  (i < height arr)%nat → (j < width arr)%nat →
  (i' < height arr)%nat → (j' < width arr)%nat →
  get 0%Z arr i j ≠ get 0%Z arr i' j' →
  ¬ constant_image (map1 0 (λ v, v / 255) (astype_float32_of_uint8 arr)).
Proof.
  intros Hi Hj Hi' Hj' Hne Hc. unfold constant_image in Hc.
  set (x0 := map1 0 (λ v, v / 255) (astype_float32_of_uint8 arr)) in *.
  pose proof (amin_le_px x0 i j Hi Hj) as A1.
  pose proof (amax_ge_px x0 i j Hi Hj) as A2.
  pose proof (amin_le_px x0 i' j' Hi' Hj') as B1.
  pose proof (amax_ge_px x0 i' j' Hi' Hj') as B2.
  unfold x0 in A1, A2, B1, B2. rewrite get_scaled in A1, A2, B1, B2 by assumption.
  fold x0 in A1, A2, B1, B2.
  apply Hne, inject_Z_div_inj. lra.
Qed.


End Stretch.

(** X5: normalisation stretches the contrast.  If the image fits in
    [max_side] and holds two different grey levels, [load_gray] returns an
    image of the same shape whose darkest pixel is 0 and whose brightest
    pixel is 1. *)
Theorem load_gray_stretches {L : SkimageLib} (arr : ndarray Z) (max_side : Z)
    (i j i' j' : nat) :
  (0 < max_side)%Z →
  (Z.of_nat (Nat.max (height arr) (width arr)) <= max_side)%Z →
  (i < height arr)%nat → (j < width arr)%nat →
  (i' < height arr)%nat → (j' < width arr)%nat →
  get 0%Z arr i j ≠ get 0%Z arr i' j' →
  ∃ y, Main.load_gray arr max_side = Ok y ∧ shape y = shape arr ∧ spans01 y.
Proof.
  intros HM Hfit Hi Hj Hi' Hj' Hne.
  rewrite load_gray_fits by assumption. eexists. split; [reflexivity|].
  split; [apply shape_rescale_intensity|].
  apply rescale_intensity_span.
  now apply (scaled_not_constant arr i j i' j').
Qed.

Lemma load_gray_stretches_witness :
  (0 < 512)%Z ∧
  (Z.of_nat (Nat.max (height Ref.gray_2x3) (width Ref.gray_2x3)) <= 512)%Z ∧
  get 0%Z Ref.gray_2x3 0 0 ≠ get 0%Z Ref.gray_2x3 1 2 ∧
  ∃ y, @Main.load_gray Ref.lib Ref.gray_2x3 512 = Ok y ∧
       shape y = shape Ref.gray_2x3 ∧ spans01 y.
Proof.
  assert (get 0%Z Ref.gray_2x3 0 0 ≠ get 0%Z Ref.gray_2x3 1 2) as Hne
    by (cbn; lia).
  split; [lia|]. split; [cbn; lia|]. split; [exact Hne|].
  apply (@load_gray_stretches Ref.lib Ref.gray_2x3 512 0 0 1 2);
    first [lia | cbn; lia | exact Hne].
Defined.



(** ** Resizing never enlarges *)



Section SaveSize.

(** The size written by [save_as_png]. *)
Lemma save_as_png_size_ok (w h : nat) (max_side : Z) :
  (0 < max_side)%Z →
  ∃ w' h', save_as_png_size w h max_side = Ok (w', h') ∧
           (w' <= w)%nat ∧ (h' <= h)%nat ∧
           (Z.of_nat (Nat.max w' h') <= max_side)%Z ∧
           ((Z.of_nat (Nat.max w h) <= max_side)%Z → (w', h') = (w, h)).
Proof.
  intros HM. unfold save_as_png_size.
  destruct (Z.eqb_spec max_side 0) as [E0|_]; [lia|].
  destruct (Qlt_le_dec 1 (inject_Z (Z.of_nat (Nat.max w h)) / inject_Z max_side))
    as [Hgt|Hle].
  - do 2 eexists. split; [reflexivity|].
    split; [now apply shrunk_side_le|]. split; [now apply shrunk_side_le|].
    assert (Z.of_nat (Nat.max w h) > 0)%Z as Hpos.
    { destruct (Nat.max w h) eqn:Em; [|lia]. exfalso.
      change (inject_Z (Z.of_nat 0)) with 0 in Hgt.
      pose proof (inject_Z_pos max_side HM).
      assert (0 / inject_Z max_side == 0) as E by (field; lra).
      rewrite E in Hgt. lra. }
    split.
    + rewrite Nat2Z.inj_max. apply Z.max_lub; apply new_side_le; lia.
    + intros Hfit. exfalso.
      apply (scale_fits (Nat.max w h) max_side HM) in Hfit. lra.
  - do 2 eexists. split; [reflexivity|]. split; [lia|]. split; [lia|].
    split; [now apply (scale_fits (Nat.max w h) max_side HM) | reflexivity].
Qed.

End SaveSize.



(** X9: what [save_as_png] wrote is not resized again.  A picture saved
    with bound [max_side], of non-zero size, and decoded to an array of
    that size passes through [load_gray] with the same or a larger bound
    without any call of [resize]: the result is the contrast-stretched
    array of the same shape. *)
Theorem saved_picture_not_resized {L : SkimageLib} (w h w' h' : nat)
    (max_side bound : Z) (arr : ndarray Z) :
  (0 < max_side)%Z → (max_side <= bound)%Z →
  save_as_png_size w h max_side = Ok (w', h') →
  (0 < w')%nat → (0 < h')%nat →
  shape arr = (h', w') →
  Main.load_gray arr bound =
  Ok (rescale_intensity
        (map1 0 (λ v, v / 255) (astype_float32_of_uint8 arr)) (0, 1)).
Proof.
  intros HM Hb Hsave _ _ Hshape.
  destruct (save_as_png_size_ok w h max_side HM) as (w1 & h1 & E & _ & _ & Hfit & _).
  rewrite E in Hsave. injection Hsave as -> ->.
  apply load_gray_fits; [lia|].
  unfold height, width. rewrite Hshape. cbn [fst snd].
  rewrite Nat.max_comm. lia.
Qed.

Lemma saved_picture_not_resized_witness :
  (0 < 2)%Z ∧ (2 <= 2)%Z ∧
  save_as_png_size 4 2 2 = Ok (2, 1)%nat ∧ (0 < 2)%nat ∧ (0 < 1)%nat ∧
  shape (NdArray (1, 2)%nat [[10; 20]]%Z) = (1, 2)%nat ∧
  @Main.load_gray Ref.lib (NdArray (1, 2)%nat [[10; 20]]%Z) 2 =
  Ok (rescale_intensity
        (map1 0 (λ v, v / 255)
           (astype_float32_of_uint8 (NdArray (1, 2)%nat [[10; 20]]%Z))) (0, 1)).
Proof.
  assert (save_as_png_size 4 2 2 = Ok (2, 1)%nat) as Hs by (vm_compute; reflexivity).
  split; [lia|]. split; [lia|]. split; [exact Hs|].
  split; [lia|]. split; [lia|]. split; [reflexivity|].
  apply (@saved_picture_not_resized Ref.lib 4 2 2 1 2 2
           (NdArray (1, 2)%nat [[10; 20]]%Z));
    first [lia | exact Hs | reflexivity].
Defined.

(** * Further properties of the acquisition *)

Import Transfer.

(** ** A transfer, chunk by chunk *)

Section Transfer.
Variable W : world.

Lemma string_app_nil_r (s : string) : s +:+ EmptyString = s.
Proof.
  induction s as [|a s IH]; [reflexivity|].
  change (String a (s +:+ EmptyString) = String a s). now rewrite IH.
Qed.

Lemma string_app_assoc (s1 s2 s3 : string) :
  (s1 +:+ s2) +:+ s3 = s1 +:+ (s2 +:+ s3).
Proof.
  induction s1 as [|a s1 IH]; [reflexivity|].
  change (String a ((s1 +:+ s2) +:+ s3) = String a (s1 +:+ (s2 +:+ s3))).
  now rewrite IH.
Qed.

(** The loop appends the received bytes to the open file. *)
Lemma read_loop_spec (dest : string) (total : Z) (cs : list string)
    (err : option exn) (downloaded : Z) (s : state) (c : string) :
  fs s !! dest = Some (File c) →
  ∃ s', read_loop dest total cs err downloaded s = (loop_outcome cs err, s') ∧
        fs s' = <[dest := File (c +:+ received cs)]> (fs s) ∧
        net_log s' = net_log s ∧ eurosat_images s' = eurosat_images s.
Proof.
  revert downloaded s c. induction cs as [|chunk cs IH]; intros downloaded s c Hc.
  - exists s. cbn [read_loop received]. unfold loop_outcome. cbn [ends_early].
    split; [now destruct err|].
    rewrite string_app_nil_r. split; [|auto]. symmetry. now apply insert_id.
  - cbn [read_loop received]. unfold loop_outcome. cbn [ends_early].
    destruct (String.eqb chunk EmptyString).
    { exists s. split; [reflexivity|]. rewrite string_app_nil_r.
      split; [|auto]. symmetry. now apply insert_id. }
    set (d' := (downloaded + Z.of_nat (String.length chunk))%Z).
    set (s1 := set_fs (insert dest (File (c +:+ chunk))) s).
    set (s2 := if (0 <? total)%Z then add_console (MsgProgress d' total) s1 else s1).
    assert ((write_chunk dest chunk ;;;
             (if (0 <? total)%Z then print (MsgProgress d' total) else ret tt) ;;;
             read_loop dest total cs err d') s
            = read_loop dest total cs err d' s2) as E.
    { unfold bind, write_chunk, s2, s1. rewrite Hc. now destruct (0 <? total)%Z. }
    rewrite E.
    assert (fs s2 = <[dest := File (c +:+ chunk)]> (fs s) ∧
            net_log s2 = net_log s ∧ eurosat_images s2 = eurosat_images s)
      as (Hf2 & Hn2 & Hi2) by (unfold s2, s1; now destruct (0 <? total)%Z).
    destruct (IH d' s2 (c +:+ chunk)) as (s' & E' & Hf' & Hn' & Hi').
    { rewrite Hf2. apply lookup_insert_eq. }
    exists s'. split; [exact E'|].
    rewrite Hf', Hf2, insert_insert_eq, string_app_assoc, Hn', Hi'. auto.
Qed.

(** The call with a missing destination, a connection that opens, a
    header that parses and a destination that can be written. *)
Lemma download_file_transfer (url dest : string) (s : state)
    (rsp : response) (total : Z) :
  fs s !! dest = None → urlopen W url = Ok rsp →
  content_length rsp = Ok total → open_wb W dest = None →
  ∃ s1,
    read_loop dest total (chunks rsp) (read_error rsp) 0
      (set_fs (insert dest (File EmptyString))
         (add_net_log url (add_console (MsgDownloading (name dest)) s)))
    = (loop_outcome (chunks rsp) (read_error rsp), s1) ∧
    fs s1 = <[dest := File (received (chunks rsp))]> (fs s) ∧
    net_log s1 = net_log s ++ [url] ∧
    eurosat_images s1 = eurosat_images s ∧
    download_file W url dest s =
      match loop_outcome (chunks rsp) (read_error rsp) with
      | Ok _ => (Ok true, add_console MsgNewline s1)
      | Raise e =>
          if is_Exception e then (Ok false, add_console (MsgError e) s1)
          else (Raise e, s1)
      end.
Proof.
  intros Hno Hnet Hlen Hopen.
  destruct (read_loop_spec dest total (chunks rsp) (read_error rsp) 0
              (set_fs (insert dest (File EmptyString))
                 (add_net_log url (add_console (MsgDownloading (name dest)) s)))
              EmptyString) as (s1 & E & Hf & Hn & Hi).
  { cbn. apply lookup_insert_eq. }
  exists s1. split; [exact E|].
  cbn in Hf, Hn, Hi. rewrite insert_insert_eq in Hf.
  split; [exact Hf|]. split; [exact Hn|]. split; [exact Hi|].
  rewrite download_file_missing by assumption.
  unfold try_except_Exception, bind, print, lift, open_for_write, bind, lift_err.
  cbn. rewrite Hnet. cbn. rewrite Hlen. cbn. rewrite Hopen. cbn.
  rewrite E.
  destruct (loop_outcome (chunks rsp) (read_error rsp)) as [[]|e]; [reflexivity|].
  now destruct (is_Exception e).
Qed.

End Transfer.

(** X10: a download that completes.  If the destination is missing, the
    connection opens, the header parses, the destination can be written
    and reading ends at an empty chunk or at the end of the data,
    [download_file] returns [True]; afterwards the destination holds the
    chunks received before the first empty one, in order, no other path has
    changed and exactly the one URL was opened. *)
Theorem download_file_completes (W : world) (url dest : string) (s : state)
    (rsp : response) (total : Z) :
  fs s !! dest = None → urlopen W url = Ok rsp →
  content_length rsp = Ok total → open_wb W dest = None →
  loop_outcome (chunks rsp) (read_error rsp) = Ok tt →
  ∃ s', download_file W url dest s = (Ok true, s') ∧
        fs s' = <[dest := File (received (chunks rsp))]> (fs s) ∧
        net_log s' = net_log s ++ [url].
Proof.
  intros Hno Hnet Hlen Hopen Hout.
  destruct (download_file_transfer W url dest s rsp total Hno Hnet Hlen Hopen)
    as (s1 & _ & Hf & Hn & _ & E).
  rewrite Hout in E. eexists. split; [exact E|]. cbn. auto.
Qed.

Lemma download_file_completes_witness :
  fs fresh !! indiana_zip = None ∧
  urlopen corrupt_server INDIANA_URL = Ok (Response (Ok 9%Z) ["<html>"; "404"] None) ∧
  content_length (Response (Ok 9%Z) ["<html>"; "404"] None) = Ok 9%Z ∧
  open_wb corrupt_server indiana_zip = None ∧
  loop_outcome ["<html>"; "404"] None = Ok tt ∧
  ∃ s', download_file corrupt_server INDIANA_URL indiana_zip fresh = (Ok true, s') ∧
        fs s' = <[indiana_zip := File (received ["<html>"; "404"])]> (fs fresh) ∧
        net_log s' = net_log fresh ++ [INDIANA_URL].
Proof.
  assert (fs fresh !! indiana_zip = None) as Hno by (vm_compute; reflexivity).
  split; [exact Hno|]. split; [reflexivity|]. split; [reflexivity|].
  split; [reflexivity|]. split; [reflexivity|].
  exact (download_file_completes corrupt_server INDIANA_URL indiana_zip fresh
           (Response (Ok 9%Z) ["<html>"; "404"] None) 9 Hno eq_refl eq_refl eq_refl
           eq_refl).
Defined.

(** X11: an interrupted transfer is taken for a finished one.  If a
    [read] raises an ordinary exception before any empty chunk,
    [download_file] prints the error and returns [False], but the bytes
    received so far stay in the destination file; every later call for that
    destination, whatever the network does then, prints that the file
    exists and returns [True] without opening a connection. *)
Theorem download_file_keeps_partial (W : world) (url dest : string) (s : state)
    (rsp : response) (total : Z) (e : exn) :
  fs s !! dest = None → urlopen W url = Ok rsp →
  content_length rsp = Ok total → open_wb W dest = None →
  ends_early (chunks rsp) = false → read_error rsp = Some e →
  is_Exception e = true →
  ∃ s1, download_file W url dest s = (Ok false, add_console (MsgError e) s1) ∧
        fs (add_console (MsgError e) s1)
          = <[dest := File (received (chunks rsp))]> (fs s) ∧
        ∀ W' url',
          download_file W' url' dest (add_console (MsgError e) s1)
          = (Ok true,
             add_console (MsgExists (name dest)) (add_console (MsgError e) s1)).
Proof.
  intros Hno Hnet Hlen Hopen Hearly Herr He.
  destruct (download_file_transfer W url dest s rsp total Hno Hnet Hlen Hopen)
    as (s1 & _ & Hf & Hn & _ & E).
  unfold loop_outcome in E. rewrite Hearly, Herr, He in E.
  exists s1. split; [exact E|]. split; [exact Hf|].
  intros W' url'. apply download_file_existing.
  cbn [fs add_console]. rewrite Hf, lookup_insert_eq. eauto.
Qed.

Lemma download_file_keeps_partial_witness :
  fs fresh !! indiana_zip = None ∧
  is_Exception (URLError "Connection reset by peer") = true ∧
  ∃ s1, download_file flaky_server INDIANA_URL indiana_zip fresh
        = (Ok false, add_console (MsgError (URLError "Connection reset by peer")) s1) ∧
        fs (add_console (MsgError (URLError "Connection reset by peer")) s1)
          = <[indiana_zip := File (received ["PK"; "abc"])]> (fs fresh) ∧
        ∀ W' url',
          download_file W' url' indiana_zip
            (add_console (MsgError (URLError "Connection reset by peer")) s1)
          = (Ok true,
             add_console (MsgExists (name indiana_zip))
               (add_console (MsgError (URLError "Connection reset by peer")) s1)).
Proof.
  assert (fs fresh !! indiana_zip = None) as Hno by (vm_compute; reflexivity).
  split; [exact Hno|]. split; [reflexivity|].
  exact (download_file_keeps_partial flaky_server INDIANA_URL indiana_zip fresh
           (Response (Ok 100%Z) ["PK"; "abc"]
              (Some (URLError "Connection reset by peer")))
           100 (URLError "Connection reset by peer")
           Hno eq_refl eq_refl eq_refl eq_refl eq_refl eq_refl).
Defined.

(** ** Extraction and the second run *)

Section Extract.

Lemma joinpath_ne_dir (out_dir m : string) : joinpath out_dir m ≠ out_dir.
Proof.
  unfold joinpath. intros E.
  rewrite <- (string_app_nil_r out_dir) in E at 2.
  apply String.app_inj in E. discriminate E.
Qed.

(** Extraction writes member paths only. *)
Lemma extract_members_lookup (out_dir k : string)
    (members : list (string * node)) (f : gmap string node) :
  (∀ m, joinpath out_dir m ≠ k) →
  fold_left (λ f m, <[joinpath out_dir (fst m) := snd m]> f) members f !! k = f !! k.
Proof.
  intros Hk. revert f. induction members as [|m members IH]; intros f; [reflexivity|].
  cbn [fold_left]. rewrite IH. apply lookup_insert_ne, Hk.
Qed.

Lemma extractall_dir (out_dir : string) (members : list (string * node)) (s : state) :
  fs (snd (extractall out_dir members s)) !! out_dir = Some Dir.
Proof.
  unfold extractall. cbn [snd fs set_fs].
  rewrite extract_members_lookup by (intros m; apply joinpath_ne_dir).
  apply lookup_insert_eq.
Qed.

Lemma extractall_other (out_dir k : string) (members : list (string * node))
    (s : state) :
  (∀ m, joinpath out_dir m ≠ k) → k ≠ out_dir →
  fs (snd (extractall out_dir members s)) !! k = fs s !! k.
Proof.
  intros Hk Hne. unfold extractall. cbn [snd fs set_fs].
  rewrite extract_members_lookup by assumption. now apply lookup_insert_ne.
Qed.

(** Once the directory of the X-rays exists the stage does nothing. *)
Lemma acquire_indiana_present (W : world) (s : state) :
  is_Some (fs s !! indiana_dir) → acquire_indiana W s = (Ok tt, s).
Proof.
  intros Hd. unfold acquire_indiana, bind, path_exists.
  now rewrite bool_decide_eq_true_2.
Qed.

End Extract.

(** X12: the X-ray archive is fetched once.  If the archive downloads
    completely and holds at least one member that [zipfile] can read, the
    stage completes, the extraction directory exists and the archive stays
    on disk; running the stage again, whatever the network does then,
    changes nothing at all: no message, no connection, no write. *)
Theorem acquire_indiana_once (W : world) (s : state) (rsp : response)
    (total : Z) (members : list (string * node)) :
  fs s !! indiana_dir = None → fs s !! indiana_zip = None →
  urlopen W INDIANA_URL = Ok rsp → content_length rsp = Ok total →
  open_wb W indiana_zip = None →
  loop_outcome (chunks rsp) (read_error rsp) = Ok tt →
  zip_members W (received (chunks rsp)) = Ok members → members ≠ [] →
  ∃ s1, acquire_indiana W s = (Ok tt, s1) ∧
        fs s1 !! indiana_dir = Some Dir ∧
        fs s1 !! indiana_zip = Some (File (received (chunks rsp))) ∧
        ∀ W', acquire_indiana W' s1 = (Ok tt, s1).
Proof.
  intros Hd Hz Hnet Hlen Hopen Hout Hzip Hmem.
  destruct (download_file_transfer W INDIANA_URL indiana_zip s rsp total
              Hz Hnet Hlen Hopen) as (s0 & _ & Hf & _ & _ & E).
  rewrite Hout in E.
  set (s2 := add_console (MsgExtracting (name indiana_zip))
               (add_console MsgNewline s0)).
  assert (fs s2 !! indiana_zip = Some (File (received (chunks rsp)))) as Hz2
    by (cbn; rewrite Hf; apply lookup_insert_eq).
  exists (snd (extractall indiana_dir members s2)).
  assert (acquire_indiana W s
          = (Ok tt, snd (extractall indiana_dir members s2))) as Erun.
  { unfold acquire_indiana, bind at 1, path_exists.
    rewrite bool_decide_eq_false_2 by (rewrite Hd; intros [? ?]; discriminate).
    cbn [negb]. unfold bind at 1. rewrite E.
    unfold extract_zip, bind, print, read_archive. fold s2.
    rewrite Hz2, Hzip. reflexivity. }
  split; [exact Erun|].
  split; [apply extractall_dir|]. split.
  - rewrite extractall_other; [exact Hz2| |].
    + intros m. unfold joinpath, indiana_zip, indiana_dir, joinpath, RAW_DIR.
      cbn. discriminate.
    + unfold indiana_zip, indiana_dir, joinpath, RAW_DIR. cbn. discriminate.
  - intros W'. apply acquire_indiana_present.
    rewrite extractall_dir. eauto.
Qed.

Lemma acquire_indiana_once_witness :
  fs fresh !! indiana_dir = None ∧ fs fresh !! indiana_zip = None ∧
  loop_outcome ["PK"; "abc"] None = Ok tt ∧
  zip_members good_server (received ["PK"; "abc"])
    = Ok [("indiana", Dir); ("indiana/CXR_png", Dir);
          ("indiana/CXR_png/1.png", File "x-ray")] ∧
  ∃ s1, acquire_indiana good_server fresh = (Ok tt, s1) ∧
        fs s1 !! indiana_dir = Some Dir ∧
        fs s1 !! indiana_zip = Some (File (received ["PK"; "abc"])) ∧
        ∀ W', acquire_indiana W' s1 = (Ok tt, s1).
Proof.
  assert (fs fresh !! indiana_dir = None) as Hd by (vm_compute; reflexivity).
  assert (fs fresh !! indiana_zip = None) as Hz by (vm_compute; reflexivity).
  split; [exact Hd|]. split; [exact Hz|]. split; [reflexivity|].
  split; [reflexivity|].
  apply (acquire_indiana_once good_server fresh
           (Response (Ok 5%Z) ["PK"; "abc"] None) 5
           [("indiana", Dir); ("indiana/CXR_png", Dir);
            ("indiana/CXR_png/1.png", File "x-ray")]);
    first [exact Hd | exact Hz | reflexivity | discriminate].
Defined.

(** ** Tiles from TensorFlow Datasets *)

Section Tiles.
Variable W : world.

Lemma existsb_eqb_false (l : string) (collected : list string) :
  existsb (String.eqb l) collected = false → l ∉ collected.
Proof.
  intros Hex Hin. apply list_elem_of_In in Hin.
  assert (existsb (String.eqb l) collected = true) as Ht.
  { apply existsb_exists. exists l. split; [assumption | apply String.eqb_refl]. }
  congruence.
Qed.

(** One turn of the loop over the dataset, unfolded. *)
Lemma collect_loop_cons (label : nat) (img : picture) (ds : list (nat * picture))
    (collected : list string) (s : state) :
  collect_loop W ((label, img) :: ds) collected s =
  match nth_error label_names label with
  | None => (Raise IndexError, s)
  | Some label_name =>
      if existsb (String.eqb label_name) collected then
        if (3 <=? length collected)%nat then (Ok tt, s)
        else collect_loop W ds collected s
      else
        match image_save W (tile_path label_name) img with
        | Raise e => (Raise e, s)
        | Ok bytes =>
            let s' := add_eurosat_image (tile_path label_name)
                        (set_fs (insert (tile_path label_name) (File bytes)) s) in
            if (3 <=? length (collected ++ [label_name]))%nat then (Ok tt, s')
            else collect_loop W ds (collected ++ [label_name]) s'
        end
  end.
Proof.
  cbn [collect_loop]. destruct (nth_error label_names label) as [ln|]; [|reflexivity].
  unfold bind at 1.
  destruct (existsb (String.eqb ln) collected).
  { unfold ret. now destruct (3 <=? length collected)%nat. }
  unfold bind, save_picture, bind, lift, append_eurosat_image, ret, tile_path.
  destruct (image_save W (joinpath eurosat_dir (ln +:+ ".png")) img);
    [|reflexivity].
  now destruct (3 <=? length (collected ++ [ln]))%nat.
Qed.

(** Whatever the dataset holds and however the loop ends, it appends the
    tiles of new, pairwise different classes, and stops at three. *)
Lemma collect_loop_spec (ds : list (nat * picture)) (collected : list string)
    (s : state) :
  NoDup collected →
  ∃ new,
    eurosat_images (snd (collect_loop W ds collected s))
      = eurosat_images s ++ map tile_path new ∧
    NoDup (collected ++ new) ∧
    (∀ l, l ∈ new → l ∈ label_names) ∧
    ((length collected < 3)%nat → (length (collected ++ new) <= 3)%nat) ∧
    net_log (snd (collect_loop W ds collected s)) = net_log s.
Proof.
  revert collected s. induction ds as [|[label img] ds IH]; intros collected s Hnd.
  { exists []. cbn. rewrite !app_nil_r. repeat split; auto; try lia.
    intros l Hl. inversion Hl. }
  rewrite collect_loop_cons.
  assert (∃ new : list string,
            eurosat_images s = eurosat_images s ++ map tile_path new ∧
            NoDup (collected ++ new) ∧ (∀ l, l ∈ new → l ∈ label_names) ∧
            ((length collected < 3)%nat → (length (collected ++ new) <= 3)%nat) ∧
            net_log s = net_log s) as Hstay.
  { exists []. cbn. rewrite !app_nil_r. repeat split; auto; try lia.
    intros l Hl. inversion Hl. }
  destruct (nth_error label_names label) as [ln|] eqn:Hnth; [|exact Hstay].
  assert (ln ∈ label_names) as Hln
    by (apply list_elem_of_In; eapply nth_error_In; eassumption).
  destruct (existsb (String.eqb ln) collected) eqn:Hex.
  { destruct (3 <=? length collected)%nat; [exact Hstay | now apply IH]. }
  apply existsb_eqb_false in Hex.
  destruct (image_save W (tile_path ln) img) as [bytes|e]; [|exact Hstay].
  cbv zeta.
  set (s' := add_eurosat_image (tile_path ln)
               (set_fs (insert (tile_path ln) (File bytes)) s)).
  assert (NoDup (collected ++ [ln])) as Hnd'.
  { apply NoDup_app. split; [assumption|]. split; [|apply NoDup_singleton].
    intros x Hx Hx'. apply list_elem_of_singleton in Hx'. now subst. }
  destruct (Nat.leb_spec 3 (length (collected ++ [ln]))) as [Hge|Hlt].
  - exists [ln]. cbn [snd]. repeat split; auto.
    + intros l Hl. apply list_elem_of_singleton in Hl. now subst.
    + rewrite length_app. cbn. lia.
  - destruct (IH (collected ++ [ln]) s' Hnd') as (new & Hi & Hn & Hl & Hlen & Hnet).
    exists (ln :: new). rewrite Hi, Hnet. cbn [map].
    replace (collected ++ ln :: new) with ((collected ++ [ln]) ++ new)
      by now rewrite <- app_assoc.
    repeat split; auto.
    + unfold s'. cbn. now rewrite <- app_assoc.
    + intros l Hl'. apply elem_of_cons in Hl'. destruct Hl' as [->|Hl']; auto.
Qed.

End Tiles.

(** X13: the loop over the dataset saves at most three tiles, one per
    class.  Whatever TensorFlow Datasets delivers and whether or not the
    loop ends with an exception, it appends to [eurosat_images] the paths
    [data_raw/eurosat/{class}.png] of at most three pairwise different
    classes of EuroSAT, and opens no connection of its own. *)
Theorem collect_loop_three_classes (W : world) (ds : list (nat * picture))
    (s : state) :
  ∃ classes,
    eurosat_images (snd (collect_loop W ds [] s))
      = eurosat_images s ++ map tile_path classes ∧
    NoDup classes ∧ (length classes <= 3)%nat ∧
    (∀ l, l ∈ classes → l ∈ label_names) ∧
    net_log (snd (collect_loop W ds [] s)) = net_log s.
Proof.
  destruct (collect_loop_spec W ds [] s (NoDup_nil_2))
    as (new & Hi & Hnd & Hl & Hlen & Hnet).
  exists new. cbn [app length] in *.
  split; [exact Hi|]. split; [exact Hnd|]. split; [apply Hlen; lia|]. now split.
Qed.

(** * Choosing the nine images *)

Import Select.

(** ** The radiographs *)

Section Medical.

Lemma quarter_steps_lt (n : nat) :
  (0 < n)%nat → (n / 4 < n ∧ n / 4 * 2 < n ∧ n / 4 * 3 < n)%nat.
Proof.
  intros Hn. pose proof (Nat.div_mod_eq n 4).
  pose proof (Nat.mod_upper_bound n 4 ltac:(lia)). lia.
Qed.

Lemma nth_error_lt_Some {A} (l : list A) (i : nat) :
  (i < length l)%nat → ∃ a, nth_error l i = Some a.
Proof.
  intros Hi. destruct (nth_error l i) as [a|] eqn:E; [eauto|].
  apply nth_error_None in E. lia.
Qed.

Lemma select_medical_eq (cxr_images : list string) (a b c : string) :
  cxr_images ≠ [] →
  nth_error cxr_images (length cxr_images / 4) = Some a →
  nth_error cxr_images (length cxr_images / 4 * 2) = Some b →
  nth_error cxr_images (length cxr_images / 4 * 3) = Some c →
  select_medical cxr_images =
  [ Pick a "Médica" "Open-I (Indiana CXR)" "Radiografía tórax" (image_path 1);
    Pick b "Médica" "Open-I (Indiana CXR)" "Radiografía tórax" (image_path 2);
    Pick c "Médica" "Open-I (Indiana CXR)" "Radiografía tórax" (image_path 3) ].
Proof.
  intros Hne Ha Hb Hc. unfold select_medical.
  destruct cxr_images as [|x0 rest] eqn:E; [congruence|]. rewrite <- E in *.
  unfold enumerate. cbn [length seq combine flat_map].
  rewrite Ha, Hb, Hc. reflexivity.
Qed.

End Medical.

(** X14: which radiographs are chosen.  From a non-empty list of [n]
    radiographs the script always takes exactly three, those at positions
    [n//4], [2*(n//4)] and [3*(n//4)], and writes them to I01, I02 and I03:
    the test [idx < len(cxr_images)] never fails.  With fewer than four
    radiographs all three are the first one; with four or more, and no
    path listed twice, they are three different radiographs. *)
Theorem select_medical_positions (cxr_images : list string) :
  cxr_images ≠ [] →
  ∃ a b c,
    nth_error cxr_images (length cxr_images / 4) = Some a ∧
    nth_error cxr_images (length cxr_images / 4 * 2) = Some b ∧
    nth_error cxr_images (length cxr_images / 4 * 3) = Some c ∧
    map (λ p, (src p, dst p)) (select_medical cxr_images)
      = [(a, image_path 1); (b, image_path 2); (c, image_path 3)] ∧
    ((length cxr_images < 4)%nat →
       head cxr_images = Some a ∧ b = a ∧ c = a) ∧
    ((4 <= length cxr_images)%nat → List.NoDup cxr_images →
       a ≠ b ∧ b ≠ c ∧ a ≠ c).
Proof.
  intros Hne.
  assert (0 < length cxr_images)%nat as Hn
    by (destruct cxr_images; [congruence | cbn; lia]).
  destruct (quarter_steps_lt _ Hn) as (H1 & H2 & H3).
  destruct (nth_error_lt_Some cxr_images _ H1) as (a & Ha).
  destruct (nth_error_lt_Some cxr_images _ H2) as (b & Hb).
  destruct (nth_error_lt_Some cxr_images _ H3) as (c & Hc).
  exists a, b, c. split; [exact Ha|]. split; [exact Hb|]. split; [exact Hc|].
  split; [now rewrite (select_medical_eq cxr_images a b c)|]. split.
  - intros Hlt. rewrite (Nat.div_small _ 4) in Ha, Hb, Hc by assumption.
    cbn in Ha, Hb, Hc. destruct cxr_images as [|x0 rest]; [congruence|].
    cbn in *. repeat split; congruence.
  - intros Hge Hnd.
    assert (1 <= length cxr_images / 4)%nat as Hq
      by (apply Nat.div_le_lower_bound; lia).
    pose proof (proj1 (NoDup_nth_error cxr_images) Hnd) as Hinj.
    repeat split; intros ->.
    + specialize (Hinj _ (length cxr_images / 4 * 2)%nat H1). rewrite Ha, Hb in Hinj.
      specialize (Hinj eq_refl). lia.
    + specialize (Hinj _ (length cxr_images / 4 * 3)%nat H2). rewrite Hb, Hc in Hinj.
      specialize (Hinj eq_refl). lia.
    + specialize (Hinj _ (length cxr_images / 4 * 3)%nat H1). rewrite Ha, Hc in Hinj.
      specialize (Hinj eq_refl). lia.
Qed.

Lemma select_medical_positions_witness :
  ["a.png"; "b.png"; "c.png"] ≠ [] ∧
  ∃ a b c,
    nth_error ["a.png"; "b.png"; "c.png"] (length ["a.png"; "b.png"; "c.png"] / 4) = Some a ∧
    nth_error ["a.png"; "b.png"; "c.png"] (length ["a.png"; "b.png"; "c.png"] / 4 * 2) = Some b ∧
    nth_error ["a.png"; "b.png"; "c.png"] (length ["a.png"; "b.png"; "c.png"] / 4 * 3) = Some c ∧
    map (λ p, (src p, dst p)) (select_medical ["a.png"; "b.png"; "c.png"])
      = [(a, image_path 1); (b, image_path 2); (c, image_path 3)] ∧
    ((length ["a.png"; "b.png"; "c.png"] < 4)%nat →
       head ["a.png"; "b.png"; "c.png"] = Some a ∧ b = a ∧ c = a) ∧
    ((4 <= length ["a.png"; "b.png"; "c.png"])%nat →
       List.NoDup ["a.png"; "b.png"; "c.png"] → a ≠ b ∧ b ≠ c ∧ a ≠ c).
Proof.
  split; [discriminate|].
  apply (select_medical_positions ["a.png"; "b.png"; "c.png"]). discriminate.
Defined.

(** ** The industrial pictures *)

Section Industrial.
Variable listing : string → option (list subdir).

Lemma first_defect_Some (subdirs : list subdir) (sd : subdir) (img : string) :
  first_defect subdirs = Some (sd, img) →
  In sd subdirs ∧ sd_is_dir sd = true ∧ sd_name sd ≠ "good" ∧
  head (sd_imgs sd) = Some img.
Proof.
  unfold first_defect.
  destruct (List.find _ subdirs) as [sd'|] eqn:Hfind; [|discriminate].
  apply find_some in Hfind. destruct Hfind as [Hin Hcond].
  destruct (sd_imgs sd') as [|img' imgs] eqn:Himgs; [discriminate|].
  intros [= <- <-].
  apply andb_prop in Hcond. destruct Hcond as [Hcond _].
  apply andb_prop in Hcond. destruct Hcond as [Hdir Hname].
  repeat split; try assumption.
  - apply negb_true_iff, String.eqb_neq in Hname. exact Hname.
  - now rewrite Himgs.
Qed.

Lemma from_defect_weaken (cat : string) (cats : list string) (p : pick) :
  from_defect listing cats p → from_defect listing (cat :: cats) p.
Proof.
  intros (c & sds & sd & Hc & H). exists c, sds, sd. split; [now right | exact H].
Qed.

Lemma select_industrial_from_spec (cats : list string) (count : nat) :
  map dst (select_industrial_from cats listing count)
    = map image_path (seq (4 + count) (length (select_industrial_from cats listing count))) ∧
  (length (select_industrial_from cats listing count) <= length cats)%nat ∧
  ((count < 3)%nat →
     (count + length (select_industrial_from cats listing count) <= 3)%nat) ∧
  Forall (from_defect listing cats) (select_industrial_from cats listing count).
Proof.
  revert count. induction cats as [|cat cats IH]; intros count.
  { cbn. repeat split; auto; lia. }
  cbn [select_industrial_from].
  destruct (listing cat) as [subdirs|] eqn:Hl.
  2:{ destruct (IH count) as (H1 & H2 & H3 & H4). repeat split; auto.
      - cbn [length]. lia.
      - eapply Forall_impl; [exact H4|]. intros p. apply from_defect_weaken. }
  destruct (first_defect subdirs) as [[sd img]|] eqn:Hfd.
  - apply first_defect_Some in Hfd. destruct Hfd as (Hin & Hdir & Hname & Hhead).
    assert (from_defect listing (cat :: cats)
              (Pick img "Industrial" "MVTec AD"
                 (cat +:+ " (" +:+ sd_name sd +:+ ")") (image_path (4 + count))))
      as Hp.
    { exists cat, subdirs, sd. cbn. repeat split; auto. }
    cbv zeta. destruct (Nat.leb_spec 3 (count + 1)) as [Hge|Hlt].
    + cbn. repeat split; auto; lia.
    + destruct (IH (count + 1)%nat) as (H1 & H2 & H3 & H4).
      cbn [map length seq dst]. rewrite H1.
      replace (4 + (count + 1))%nat with (S (4 + count)) by lia.
      repeat split; auto; try lia.
      apply Forall_cons_2; [exact Hp|].
      eapply Forall_impl; [exact H4|]. intros p. apply from_defect_weaken.
  - destruct (Nat.leb_spec 3 count) as [Hge|Hlt].
    + cbn. repeat split; auto; lia.
    + destruct (IH count) as (H1 & H2 & H3 & H4). repeat split; auto.
      * cbn [length]. lia.
      * eapply Forall_impl; [exact H4|]. intros p. apply from_defect_weaken.
Qed.

End Industrial.


(** With no grid pictures on disk, the leather picture becomes I04. *)
Example leather_becomes_I04 :
  map (λ p, (description p, dst p))
    (select_industrial
       (λ cat, if String.eqb cat "leather"
               then Some [Subdir "good" true ["g.png"];
                          Subdir "cut" true ["c1.png"; "c2.png"]]
               else None))
  = [("leather (cut)", "images/I04.png")].
Proof. vm_compute. reflexivity. Qed.

(** ** All nine *)

Section Selected.

Lemma select_medical_dst (cxr_images : list string) :
  map dst (select_medical cxr_images) = [] ∨
  map dst (select_medical cxr_images) = map image_path [1; 2; 3]%nat.
Proof.
  destruct cxr_images as [|x0 rest] eqn:E; [now left|]. right. rewrite <- E.
  assert (cxr_images ≠ []) as Hne by (rewrite E; discriminate).
  assert (0 < length cxr_images)%nat as Hn by (rewrite E; cbn; lia).
  destruct (quarter_steps_lt _ Hn) as (H1 & H2 & H3).
  destruct (nth_error_lt_Some cxr_images _ H1) as (a & Ha).
  destruct (nth_error_lt_Some cxr_images _ H2) as (b & Hb).
  destruct (nth_error_lt_Some cxr_images _ H3) as (c & Hc).
  now rewrite (select_medical_eq cxr_images a b c).
Qed.

Lemma select_satellite_dst (eurosat_images : list string) :
  ∃ k, (k <= 3)%nat ∧ k = Nat.min 3 (length eurosat_images) ∧
       map dst (select_satellite eurosat_images) = map image_path (seq 7 k).
Proof.
  destruct eurosat_images as [|a [|b [|c rest]]].
  - exists 0%nat. repeat split; auto.
  - exists 1%nat. repeat split; auto.
  - exists 2%nat. repeat split; auto.
  - exists 3%nat. repeat split; auto.
Qed.

(** The names I01 ... I09 are pairwise different. *)
Lemma image_paths_NoDup : NoDup (map image_path (seq 1 9)).
Proof. apply (bool_decide_unpack _). vm_compute. reflexivity. Qed.

End Selected.

(** X16: no destination is used twice.  Whatever the three sources
    hold, the pictures chosen are written to pairwise different files, all
    among [images/I01.png] ... [images/I09.png] and in increasing order of
    their number; at most nine are chosen, at most three of them
    satellite tiles. *)
Theorem selected_destinations_distinct (cxr_images : list string)
    (listing : string → option (list subdir)) (eurosat_images : list string) :
  ∃ ids,
    map dst (selected cxr_images listing eurosat_images) = map image_path ids ∧
    sublist ids (seq 1 9) ∧
    NoDup (map dst (selected cxr_images listing eurosat_images)) ∧
    (length (selected cxr_images listing eurosat_images) <= 9)%nat ∧
    (length (select_satellite eurosat_images) <= 3)%nat.
Proof.
  destruct (select_industrial_from_spec listing ["grid"; "leather"; "metal_nut"] 0)
    as (Hi & Hil & _ & _).
  fold (select_industrial listing) in Hi, Hil. cbn [length] in Hil.
  destruct (select_satellite_dst eurosat_images) as (k & Hk & _ & Hs).
  set (n := length (select_industrial listing)) in *.
  assert (∃ m, (m = [] ∨ m = [1; 2; 3]%nat) ∧
               map dst (select_medical cxr_images) = map image_path m)
    as (m & Hm & Hmd).
  { destruct (select_medical_dst cxr_images) as [E|E];
      [exists [] | exists [1; 2; 3]%nat]; auto. }
  assert (sublist (m ++ seq 4 n ++ seq 7 k) (seq 1 9)) as Hsub.
  { assert (n = 0 ∨ n = 1 ∨ n = 2 ∨ n = 3)%nat as Hn by lia.
    assert (k = 0 ∨ k = 1 ∨ k = 2 ∨ k = 3)%nat as Hk' by lia.
    destruct Hm as [-> | ->];
      destruct Hn as [-> | [-> | [-> | ->]]];
      destruct Hk' as [-> | [-> | [-> | ->]]];
      cbn [seq app]; repeat constructor. }
  exists (m ++ seq 4 n ++ seq 7 k).
  assert (map dst (selected cxr_images listing eurosat_images)
          = map image_path (m ++ seq 4 n ++ seq 7 k)) as E.
  { unfold selected. rewrite !map_app, Hmd, Hi, Hs. reflexivity. }
  split; [exact E|]. split; [exact Hsub|]. split.
  - rewrite E.
    apply (sublist_NoDup _ (map image_path (seq 1 9)));
      [apply image_paths_NoDup | apply (fmap_sublist image_path); exact Hsub].
  - split.
    + rewrite <- (length_map dst), E, length_map.
      pose proof (sublist_length _ _ Hsub) as Hlen.
      now rewrite length_seq in Hlen.
    + rewrite <- (length_map dst), Hs, length_map, length_seq. exact Hk.
Qed.

(** * The regeneration script *)

Import RegenScript.

(** ** The images found *)

Section ImgPaths.
Variable f : gmap string node.

Lemma find_image_Some (i : nat) (p : string) :
  find_image f i = Some p →
  is_Some (f !! p) ∧ ∃ ext, In ext exts ∧ p = candidate i ext.
Proof.
  unfold find_image. intros Hfind. apply find_some in Hfind.
  destruct Hfind as [Hin Hex]. apply bool_decide_eq_true_1 in Hex.
  split; [exact Hex|]. apply in_map_iff in Hin.
  destruct Hin as (ext & <- & Hext). eauto.
Qed.

(** The extensions are tried in the order png, jpg, jpeg. *)
Lemma find_image_order (i : nat) :
  find_image f i =
  if bool_decide (is_Some (f !! candidate i ".png")) then Some (candidate i ".png")
  else if bool_decide (is_Some (f !! candidate i ".jpg")) then Some (candidate i ".jpg")
  else if bool_decide (is_Some (f !! candidate i ".jpeg")) then Some (candidate i ".jpeg")
  else None.
Proof. reflexivity. Qed.

Lemma img_paths_In (p : string) :
  In p (img_paths f) ↔ ∃ i, (1 <= i <= 9)%nat ∧ find_image f i = Some p.
Proof.
  unfold img_paths. rewrite in_flat_map. split.
  - intros (i & Hi & Hp). apply in_seq in Hi. exists i. split; [lia|].
    destruct (find_image f i) as [q|]; cbn in Hp; [|destruct Hp].
    destruct Hp as [->|[]]. reflexivity.
  - intros (i & Hi & Hp). exists i. split; [apply in_seq; lia|].
    rewrite Hp. now left.
Qed.

Lemma flat_option_length {A} (g : nat → option A) (l : list nat) :
  (length (flat_map (λ i, option_list (g i)) l) <= length l)%nat ∧
  (length (flat_map (λ i, option_list (g i)) l) = length l ↔
   ∀ i, In i l → is_Some (g i)).
Proof.
  induction l as [|i l [IH1 IH2]]; cbn [flat_map length].
  { split; [lia|]. split; [intros _ i [] | reflexivity]. }
  rewrite length_app. destruct (g i) as [a|] eqn:Hg; unfold option_list in *; cbn [option_rect length Nat.add].
  - split; [lia|]. split.
    + intros Hlen j [<-|Hj]; [rewrite Hg; eauto|]. apply IH2; [lia | assumption].
    + intros Hall. f_equal. apply IH2. intros j Hj. apply Hall. now right.
  - split; [lia|]. split; [lia|].
    intros Hall. specialize (Hall i (or_introl eq_refl)). rewrite Hg in Hall.
    destruct Hall as [? ?]. discriminate.
Qed.

Lemma find_image_is_Some (i : nat) :
  is_Some (find_image f i) ↔ ∃ ext, In ext exts ∧ is_Some (f !! candidate i ext).
Proof.
  split.
  - intros [p Hp]. apply find_image_Some in Hp.
    destruct Hp as (Hex & ext & Hext & ->). eauto.
  - intros (ext & Hext & Hex). unfold find_image.
    destruct (List.find _ (map (candidate i) exts)) as [p|] eqn:Hfind; [eauto|].
    exfalso. eapply find_none in Hfind;
      [| apply in_map_iff; exists ext; split; [reflexivity | exact Hext]].
    apply bool_decide_eq_false_1 in Hfind. contradiction.
Qed.

End ImgPaths.

Section Found.
Variable f : gmap string node.

Lemma find_image_sublist (i : nat) :
  sublist (option_list (find_image f i)) (map (candidate i) exts).
Proof.
  rewrite find_image_order.
  repeat (match goal with |- context [bool_decide ?P] => destruct (bool_decide P) end);
    cbn; repeat constructor.
Qed.

Lemma flat_map_sublist {A B} (g1 g2 : A → list B) (l : list A) :
  (∀ a, sublist (g1 a) (g2 a)) → sublist (flat_map g1 l) (flat_map g2 l).
Proof.
  intros H. induction l as [|a l IH]; [constructor|].
  cbn [flat_map]. now apply sublist_app.
Qed.

Lemma img_paths_sublist : sublist (img_paths f) all_candidates.
Proof. apply flat_map_sublist. intros i. apply find_image_sublist. Qed.

Lemma all_candidates_NoDup : NoDup all_candidates.
Proof. apply (bool_decide_unpack _). vm_compute. reflexivity. Qed.

Lemma all_candidates_info :
  forallb (λ c, match getitem IMG_INFO (stem c) with Some _ => true | None => false end)
    all_candidates = true.
Proof. vm_compute. reflexivity. Qed.

End Found.

(** X17: the images the regeneration script finds.  Every path of
    [img_paths] exists and is [images/I0i.ext] with [i] from 1 to 9 and an
    extension among png, jpg, jpeg; for each [i] the first of the three
    extensions that exists is the one taken; no path occurs twice; there
    are at most nine, and exactly nine when every number from 1 to 9 has a
    picture with one of the extensions. *)
Theorem img_paths_found (f : gmap string node) :
  (∀ p, In p (img_paths f) →
        is_Some (f !! p) ∧
        ∃ i ext, (1 <= i <= 9)%nat ∧ In ext exts ∧ p = candidate i ext) ∧
  (∀ i, (1 <= i <= 9)%nat →
        (is_Some (f !! candidate i ".png") →
         In (candidate i ".png") (img_paths f)) ∧
        (f !! candidate i ".png" = None → is_Some (f !! candidate i ".jpg") →
         In (candidate i ".jpg") (img_paths f)) ∧
        (f !! candidate i ".png" = None → f !! candidate i ".jpg" = None →
         is_Some (f !! candidate i ".jpeg") →
         In (candidate i ".jpeg") (img_paths f))) ∧
  NoDup (img_paths f) ∧
  (length (img_paths f) <= 9)%nat ∧
  (length (img_paths f) = 9%nat ↔
   ∀ i, (1 <= i <= 9)%nat → ∃ ext, In ext exts ∧ is_Some (f !! candidate i ext)).
Proof.
  split; [|split; [|split; [|split]]].
  - intros p Hp. apply img_paths_In in Hp. destruct Hp as (i & Hi & Hfind).
    apply find_image_Some in Hfind. destruct Hfind as (Hex & ext & Hext & ->).
    split; [exact Hex|]. eauto.
  - intros i Hi.
    repeat split.
    + intros Hpng. apply img_paths_In. exists i. split; [exact Hi|].
      rewrite find_image_order. now rewrite bool_decide_eq_true_2.
    + intros Hpng Hjpg. apply img_paths_In. exists i. split; [exact Hi|].
      rewrite find_image_order.
      rewrite bool_decide_eq_false_2 by (rewrite Hpng; intros [? ?]; discriminate).
      now rewrite bool_decide_eq_true_2.
    + intros Hpng Hjpg Hjpeg. apply img_paths_In. exists i. split; [exact Hi|].
      rewrite find_image_order.
      rewrite bool_decide_eq_false_2 by (rewrite Hpng; intros [? ?]; discriminate).
      rewrite bool_decide_eq_false_2 by (rewrite Hjpg; intros [? ?]; discriminate).
      now rewrite bool_decide_eq_true_2.
  - apply (sublist_NoDup _ all_candidates);
      [apply all_candidates_NoDup | apply img_paths_sublist].
  - destruct (flat_option_length (find_image f) (seq 1 9)) as [Hle _].
    now rewrite length_seq in Hle.
  - destruct (flat_option_length (find_image f) (seq 1 9)) as [_ Hiff].
    rewrite length_seq in Hiff. unfold img_paths. rewrite Hiff. split.
    + intros H i Hi. apply find_image_is_Some, H, in_seq. lia.
    + intros H i Hi. apply find_image_is_Some, H. apply in_seq in Hi. lia.
Qed.

(** X18: every image found has its entry in [IMG_INFO].  The stem of a
    path of [img_paths] is one of the nine keys I01 ... I09, so
    [IMG_INFO.get(img_id, ("", "", ""))] never falls back to its default. *)
Theorem img_info_known (f : gmap string node) (p : string) :
  In p (img_paths f) →
  ∃ info, getitem IMG_INFO (stem p) = Some info ∧ img_info (stem p) = info ∧
          In (stem p) (keys IMG_INFO).
Proof.
  intros Hp.
  assert (In p all_candidates) as Hc.
  { apply img_paths_In in Hp. destruct Hp as (i & Hi & Hfind).
    apply find_image_Some in Hfind. destruct Hfind as (_ & ext & Hext & ->).
    unfold all_candidates. apply in_flat_map. exists i.
    split; [apply in_seq; lia | now apply in_map]. }
  pose proof all_candidates_info as Hall.
  rewrite forallb_forall in Hall. specialize (Hall p Hc).
  unfold img_info.
  destruct (getitem IMG_INFO (stem p)) as [info|] eqn:E; [|discriminate].
  exists info. repeat split.
  clear Hall. revert E. generalize (stem p) as k. intros k.
  unfold keys. generalize IMG_INFO as d. intros d.
  induction d as [|[k' v] d IH]; cbn; [discriminate|].
  destruct (String.eqb_spec k' k) as [->|Hne]; [now left|]. intros E. right. auto.
Qed.

Lemma img_info_known_witness :
  In "images/I07.jpg" (img_paths some_images) ∧
  ∃ info, getitem IMG_INFO (stem "images/I07.jpg") = Some info ∧
          img_info (stem "images/I07.jpg") = info ∧
          In (stem "images/I07.jpg") (keys IMG_INFO).
Proof.
  assert (In "images/I07.jpg" (img_paths some_images)) as Hin
    by (vm_compute; tauto).
  split; [exact Hin|]. exact (img_info_known some_images "images/I07.jpg" Hin).
Defined.

(** ** Montage targets *)

Section Targets.
Variable f : gmap string node.

Lemma filter_option_list {A} (P : A → bool) (o : option A) :
  List.filter P (option_list o) =
  match o with Some a => if P a then [a] else [] | None => [] end.
Proof. now destruct o. Qed.

Lemma filter_flat_map {A B} (P : B → bool) (g : A → list B) (l : list A) :
  List.filter P (flat_map g l) = flat_map (λ a, List.filter P (g a)) l.
Proof.
  induction l as [|a l IH]; [reflexivity|].
  cbn [flat_map]. now rewrite List.filter_app, IH.
Qed.

(** Whether a path of number [i] is a montage target depends on [i]
    alone. *)
Lemma target_of_number (i : nat) (keep : bool) :
  forallb (λ ext, Bool.eqb (existsb (String.eqb (stem (candidate i ext))) montage_targets) keep)
    exts = true →
  List.filter (λ p, existsb (String.eqb (stem p)) montage_targets)
    (option_list (find_image f i))
  = if keep then option_list (find_image f i) else [].
Proof.
  intros Hall. rewrite forallb_forall in Hall.
  rewrite filter_option_list.
  destruct (find_image f i) as [p|] eqn:Hfind; [|now destruct keep].
  apply find_image_Some in Hfind. destruct Hfind as (_ & ext & Hext & ->).
  specialize (Hall ext Hext). apply Bool.eqb_prop in Hall. rewrite Hall.
  now destruct keep.
Qed.

End Targets.

(** X19: montages and histograms are made for I01, I04 and I07 only.
    The images that pass the test [img_id not in montage_targets] are the
    pictures found for the numbers 1, 4 and 7, in that order: at most
    three, whatever else the image directory holds. *)
Theorem montage_inputs_targets (f : gmap string node) :
  montage_inputs f = flat_map (λ i, option_list (find_image f i)) [1; 4; 7]%nat ∧
  hist_inputs f = montage_inputs f ∧
  (length (montage_inputs f) <= 3)%nat.
Proof.
  assert (montage_inputs f
          = flat_map (λ i, option_list (find_image f i)) [1; 4; 7]%nat) as E.
  { unfold montage_inputs, img_paths. rewrite filter_flat_map.
    cbn [seq flat_map].
    rewrite (target_of_number f 1 true), (target_of_number f 2 false),
      (target_of_number f 3 false), (target_of_number f 4 true),
      (target_of_number f 5 false), (target_of_number f 6 false),
      (target_of_number f 7 true), (target_of_number f 8 false),
      (target_of_number f 9 false) by (vm_compute; reflexivity).
    cbn [app]. now rewrite !app_nil_r. }
  split; [exact E|]. split; [reflexivity|]. rewrite E.
  destruct (flat_option_length (find_image f) [1; 4; 7]%nat) as [Hle _].
  exact Hle.
Qed.

(** ** The table of metrics *)

Section Metrics.
Context {L : SkimageLib}.
Variable ssim : ndarray Q → ndarray Q → Q.
Variable std : ndarray Q → Q.







End Metrics.


(** ** The noise estimate *)

Section Noise.
Context {L : SkimageLib}.

Lemma insert_asc_In (v a : Q) (l : list Q) :
  In v (insert_asc a l) → v = a ∨ In v l.
Proof.
  induction l as [|b l IH]; cbn [insert_asc].
  - intros [<-|[]]. now left.
  - destruct (Qle_bool a b).
    + intros [<-|H]; [now left | now right].
    + intros [<-|H]; [right; now left|].
      destruct (IH H) as [->|H']; [now left | right; now right].
Qed.

Lemma sort_asc_In (v : Q) (l : list Q) : In v (sort_asc l) → In v l.
Proof.
  induction l as [|a l IH]; cbn [sort_asc fold_right]; [auto|].
  intros H. apply insert_asc_In in H. destruct H as [->|H]; [now left|].
  right. now apply IH.
Qed.

Lemma nth_nonneg (s : list Q) (i : nat) :
  (∀ v, In v s → 0 <= v) → 0 <= nth i s 0.
Proof.
  intros Hs. destruct (nth_in_or_default i s 0) as [Hin| ->];
    [now apply Hs | apply Qle_refl].
Qed.

(** The median of non-negative values is non-negative. *)
Lemma np_median_nonneg (l : list Q) :
  (∀ v, In v l → 0 <= v) → 0 <= np_median l.
Proof.
  intros Hl. unfold np_median.
  assert (∀ v, In v (sort_asc l) → 0 <= v) as Hs
    by (intros v Hv; now apply Hl, sort_asc_In).
  destruct (length l =? 0)%nat; [apply Qle_refl|].
  destruct (Nat.odd (length l)); [now apply nth_nonneg|].
  pose proof (nth_nonneg (sort_asc l) (length l / 2 - 1) Hs).
  pose proof (nth_nonneg (sort_asc l) (length l / 2) Hs).
  apply Qle_shift_div_l; [reflexivity|]. lra.
Qed.

End Noise.

(** X21: the noise estimate is never negative.  [sigma_hat_fast] is
    1.4826 times a median of absolute deviations, so it is at least 0 for
    every non-empty image and every smoothing filter. *)
Theorem sigma_hat_fast_nonneg {L : SkimageLib} (x : ndarray Q) :
  (0 < height x)%nat → (0 < width x)%nat →
  0 <= sigma_hat_fast x.
Proof.
  intros _ _. unfold sigma_hat_fast.
  set (hp := sub x (gaussian x 1 true)).
  set (med := np_median (ravel 0 hp)).
  assert (0 <= np_median (ravel 0 (map1 0 (λ v, Qabs (v - med)) hp))) as Hmad.
  { apply np_median_nonneg. intros v Hv. apply In_ravel in Hv.
    destruct Hv as (i & j & Hi & Hj & <-).
    rewrite get_map1 by assumption. apply Qabs_nonneg. }
  apply Qmult_le_0_compat; [|exact Hmad]. unfold Qle. cbn. lia.
Qed.

Lemma sigma_hat_fast_nonneg_witness :
  (0 < height Ref.step3)%nat ∧ (0 < width Ref.step3)%nat ∧
  0 <= @sigma_hat_fast Ref.lib Ref.step3.
Proof.
  split; [cbn; lia|]. split; [cbn; lia|].
  apply (@sigma_hat_fast_nonneg Ref.lib Ref.step3); cbn; lia.
Defined.
